(** * A shallow embedding of the fork / race constructors, the cron parser and
      matcher, and the PBKDF2 password helpers, with the Cause and Scope
      algebra of the runtime they sit on. *)

From stdpp Require Import gmap strings list sorting.
From Stdlib Require Import ZArith Lia Permutation Ascii.

Local Open Scope Z_scope.

(* ===================================================================== *)
(** ** packages/effect/src/Effect/scope.ts *)
(* ===================================================================== *)

Module Effect.

Section Primitives.

(** [Scope<Exit<any, any>>], [Exit.Exit<E, A>] and [Fiber.Fiber<E, A>] are
    imported by scope.ts as types only; the constructors below never look
    inside them.  [Prim] stands for the instructions of primitives.ts that
    scope.ts does not construct. *)
Variables (Scope Exit Fiber Prim : Type).

(** [import { globalScope } from "../Scope"] *)
Variable globalScope : Scope.

(** The three instruction classes scope.ts instantiates, with the fields in
    the order of their [new] calls.  The type parameters [R, E, A] are erased. *)
Inductive Effect : Type :=
| IPrim (p : Prim)
| IFork (value : Effect) (scope : option Scope)
| IGetForkScope (f : Scope -> Effect)
| IRaceWith (left right : Effect)
            (leftWins : Exit -> Fiber -> Effect)
            (rightWins : Exit -> Fiber -> Effect)
            (scope : option Scope).

(** [forkDaemon(value) = new IFork(value, O.some(globalScope))] *)
Definition forkDaemon (value : Effect) : Effect :=
  IFork value (Some globalScope).

(** [forkIn(scope)(value) = new IFork(value, O.some(scope))] *)
Definition forkIn (scope : Scope) : Effect -> Effect :=
  fun value => IFork value (Some scope).

(** [forkScopeWith(f) = new IGetForkScope(f)] *)
Definition forkScopeWith (f : Scope -> Effect) : Effect :=
  IGetForkScope f.

(** [raceWith(left, right, leftWins, rightWins, scope = O.none)].  The fifth
    parameter has a default: [None] here is the omitted (or [undefined])
    argument, [Some o] the caller's [O.Option] value [o]. *)
Definition raceWith (left right : Effect)
           (leftWins rightWins : Exit -> Fiber -> Effect)
           (scope : option (option Scope)) : Effect :=
  IRaceWith left right leftWins rightWins
            (match scope with Some o => o | None => None end).

(** Field reads on a constructed instruction ([node.value], [node.scope],
    [node.f], ...); [None] when the node is of another class. *)
Definition fork_value (e : Effect) : option Effect :=
  match e with IFork v _ => Some v | _ => None end.

Definition fork_scope (e : Effect) : option (option Scope) :=
  match e with IFork _ s => Some s | _ => None end.

Definition getForkScope_f (e : Effect) : option (Scope -> Effect) :=
  match e with IGetForkScope f => Some f | _ => None end.

Definition race_branches (e : Effect) : option (Effect * Effect) :=
  match e with IRaceWith l r _ _ _ => Some (l, r) | _ => None end.

Definition race_leftWins (e : Effect) : option (Exit -> Fiber -> Effect) :=
  match e with IRaceWith _ _ lw _ _ => Some lw | _ => None end.

Definition race_rightWins (e : Effect) : option (Exit -> Fiber -> Effect) :=
  match e with IRaceWith _ _ _ rw _ => Some rw | _ => None end.

Definition race_scope (e : Effect) : option (option Scope) :=
  match e with IRaceWith _ _ _ _ s => Some s | _ => None end.

(** Number of [IFork] instructions a description holds outside its
    continuations (those are functions, not yet applied). *)
Fixpoint forkNodes (e : Effect) : nat :=
  match e with
  | IPrim _ => 0
  | IFork v _ => S (forkNodes v)
  | IGetForkScope _ => 0
  | IRaceWith l r _ _ _ => forkNodes l + forkNodes r
  end.

(** Number of instructions the constructor call itself allocates: the
    difference between the result and the descriptions it was given. *)
Fixpoint nodes (e : Effect) : nat :=
  match e with
  | IPrim _ => 1
  | IFork v _ => S (nodes v)
  | IGetForkScope _ => 1
  | IRaceWith l r _ _ _ => S (nodes l + nodes r)
  end.


(** *** How the interpreter treats these instructions *)

(** Modelled from the spec: fibers are told apart by an id; the
    interpreter and the fibers are not under src/. *)
Definition FiberId : Type := nat.

(** Modelled from the spec: section 3, a fiber is [Suspended], [Running]
    or [Done] with its Exit. *)
Inductive Status : Type :=
| Suspended
| Running
| Done (exit : Exit).

(** Modelled from the spec: section 3, [Done] is final. *)
Definition alive (s : Status) : bool :=
  match s with Done _ => false | _ => true end.

(** Modelled from the spec: what a fiber is at.  A task it has still to
    interpret; the handle a fork has just returned to it (section 4.4); or
    a race it waits in, with its two branches and the two continuations
    (section 4.5). *)
Inductive Control : Type :=
| Run (task : Effect)
| Forked (child : Fiber)
| Racing (left right : FiberId)
         (leftWins rightWins : Exit -> Fiber -> Effect).

(** Modelled from the spec: section 3, a fiber has a state and an owning
    scope; section 4.4, an interrupt flags it. *)
Record FiberState : Type := mkFiberState {
  status : Status;
  owner : Scope;
  interrupted : bool;
  control : Control
}.

(** Modelled from the spec: the fibers by id, and the next id to give
    out. *)
Record Runtime : Type := mkRuntime {
  fibers : gmap FiberId FiberState;
  nextId : FiberId
}.

(** Modelled from the spec: the handle of a fiber, the lifetime scope of
    a fiber (where its forks go when no target is named, section 4.3) and
    the fresh scope of a race it runs (section 4.5). *)
Variable handle : FiberId -> Fiber.
Variable lifetime : FiberId -> Scope.
Variable ephemeral : FiberId -> Scope.

(** Modelled from the spec: section 3, a fiber is created by a fork, in
    state [Suspended], and runs only once it is scheduled. *)
Definition spawn (task : Effect) (scope : Scope) (rt : Runtime) : Runtime :=
  {| fibers := <[nextId rt := mkFiberState Suspended scope false (Run task)]>
                 (fibers rt);
     nextId := S (nextId rt) |}.

(** Modelled from the spec: one step of the interpreter on fiber [p].
    Section 4.3 and 4.4: [Fork] registers the child under the named target,
    else under the forking fiber's lifetime scope, and returns the handle
    at once; section 5: it does not suspend the caller.  Section 4.3:
    [GetForkScope] hands the ambient scope to its continuation and forks
    nothing.  Section 4.5 and 5: [RaceWith] forks both branches under one
    scope, the caller's or a fresh one, and waits.  A fiber that is not
    [Running] does nothing; the other instructions are not modelled. *)
Definition interpret (p : FiberId) (rt : Runtime) : Runtime :=
  match fibers rt !! p with
  | Some fp =>
      match status fp, control fp with
      | Running, Run (IFork task target) =>
          let child := nextId rt in
          let rt := spawn task (default (lifetime p) target) rt in
          {| fibers := <[p := mkFiberState Running (owner fp) (interrupted fp)
                                           (Forked (handle child))]> (fibers rt);
             nextId := nextId rt |}
      | Running, Run (IGetForkScope f) =>
          {| fibers := <[p := mkFiberState Running (owner fp) (interrupted fp)
                                           (Run (f (lifetime p)))]> (fibers rt);
             nextId := nextId rt |}
      | Running, Run (IRaceWith l r lw rw target) =>
          let cl := nextId rt in
          let cr := S cl in
          let scope := default (ephemeral p) target in
          let rt := spawn r scope (spawn l scope rt) in
          {| fibers := <[p := mkFiberState Suspended (owner fp) (interrupted fp)
                                           (Racing cl cr lw rw)]> (fibers rt);
             nextId := nextId rt |}
      | _, _ => rt
      end
  | None => rt
  end.



(** Modelled from the spec: section 4.5, what the completion of fiber [c]
    with exit [e] means to a fiber: one that waits in a race with [c] as a
    branch goes on with the matching continuation, applied to [e] and the
    handle of the other branch; any other fiber is left as it is. *)
Definition wake (c : FiberId) (e : Exit) (f : FiberState) : FiberState :=
  match control f with
  | Racing cl cr lw rw =>
      if decide (c = cl) then
        mkFiberState Running (owner f) (interrupted f) (Run (lw e (handle cr)))
      else if decide (c = cr) then
        mkFiberState Running (owner f) (interrupted f) (Run (rw e (handle cl)))
      else f
  | _ => f
  end.

(** Modelled from the spec: section 3, a fiber reaches [Done] once and no
    transition leaves [Done]; section 4.5, the race it is a branch of is
    resolved at that moment. *)
Definition complete (c : FiberId) (e : Exit) (rt : Runtime) : Runtime :=
  match fibers rt !! c with
  | Some fc =>
      if alive (status fc) then
        {| fibers := wake c e <$>
                       <[c := mkFiberState (Done e) (owner fc) (interrupted fc)
                                           (control fc)]> (fibers rt);
           nextId := nextId rt |}
      else rt
  | None => rt
  end.

(** The ids from [nextId] on are not in use. *)
Definition wellFormed (rt : Runtime) : Prop :=
  forall i : FiberId, (nextId rt <= i)%nat -> fibers rt !! i = None.



(** *** Theorems *)

(** C1: for every task [t], [forkDaemon t] equals [forkIn globalScope t]:
    both are the [IFork] node of [t] whose target scope is
    [Some globalScope]. *)
Theorem forkDaemon_is_forkIn_globalScope (t : Effect) :
  forkDaemon t = forkIn globalScope t
  /\ forkDaemon t = IFork t (Some globalScope)
  /\ forkIn globalScope t = IFork t (Some globalScope)
  /\ fork_value (forkDaemon t) = Some t
  /\ fork_scope (forkDaemon t) = Some (Some globalScope).
Proof. repeat split. Qed.

(** The four functions are constructors: each returns exactly one new
    instruction ([IFork], [IGetForkScope], [IRaceWith]) around the tasks
    and continuations it was given, which can be read back unchanged from
    its fields. *)
Lemma fork_race_constructors_are_pure
        (scope : Scope) (task left right : Effect) (f : Scope -> Effect)
        (leftWins rightWins : Exit -> Fiber -> Effect)
        (sc : option (option Scope)) :
  (forkIn scope task = IFork task (Some scope)
   /\ fork_value (forkIn scope task) = Some task
   /\ nodes (forkIn scope task) = S (nodes task))
  /\ (forkDaemon task = IFork task (Some globalScope)
      /\ fork_value (forkDaemon task) = Some task
      /\ nodes (forkDaemon task) = S (nodes task))
  /\ (forkScopeWith f = IGetForkScope f
      /\ getForkScope_f (forkScopeWith f) = Some f
      /\ nodes (forkScopeWith f) = 1%nat)
  /\ (exists s, raceWith left right leftWins rightWins sc
                = IRaceWith left right leftWins rightWins s)
  /\ race_branches (raceWith left right leftWins rightWins sc) = Some (left, right)
  /\ race_leftWins (raceWith left right leftWins rightWins sc) = Some leftWins
  /\ race_rightWins (raceWith left right leftWins rightWins sc) = Some rightWins
  /\ nodes (raceWith left right leftWins rightWins sc)
     = S (nodes left + nodes right).
Proof.
  repeat split; try reflexivity.
  unfold raceWith; eauto.
Qed.

(** C5: [raceWith] called without a scope argument builds an [IRaceWith]
    node whose target scope is [None]; called with a scope argument it
    records exactly that value, and the node has this one scope field for
    both branches. *)
Theorem raceWith_scope_field
        (left right : Effect) (leftWins rightWins : Exit -> Fiber -> Effect) :
  raceWith left right leftWins rightWins None
  = IRaceWith left right leftWins rightWins None
  /\ (forall o : option Scope,
         raceWith left right leftWins rightWins (Some o)
         = IRaceWith left right leftWins rightWins o)
  /\ (forall s : Scope,
         race_scope (raceWith left right leftWins rightWins (Some (Some s)))
         = Some (Some s)
         /\ race_branches (raceWith left right leftWins rightWins (Some (Some s)))
            = Some (left, right)).
Proof. repeat split. Qed.

(** The node of [raceWith] holds the caller's two branches and two
    continuations as given, with no fork or other instruction added around
    them. *)
Lemma raceWith_keeps_continuations
        (left right : Effect) (leftWins rightWins : Exit -> Fiber -> Effect)
        (sc : option (option Scope)) :
  race_branches (raceWith left right leftWins rightWins sc) = Some (left, right)
  /\ (exists lw, race_leftWins (raceWith left right leftWins rightWins sc) = Some lw
                 /\ forall (e : Exit) (loser : Fiber), lw e loser = leftWins e loser)
  /\ (exists rw, race_rightWins (raceWith left right leftWins rightWins sc) = Some rw
                 /\ forall (e : Exit) (loser : Fiber), rw e loser = rightWins e loser)
  /\ nodes (raceWith left right leftWins rightWins sc) = S (nodes left + nodes right)
  /\ forkNodes (raceWith left right leftWins rightWins sc)
     = (forkNodes left + forkNodes right)%nat.
Proof.
  repeat split; try reflexivity; eexists; split; reflexivity.
Qed.

(** C7: for every continuation [f], [forkScopeWith f] is the
    [IGetForkScope] node holding [f] itself, and it is not (and holds no)
    [IFork] node. *)
Theorem forkScopeWith_wraps_without_fork (f : Scope -> Effect) :
  forkScopeWith f = IGetForkScope f
  /\ getForkScope_f (forkScopeWith f) = Some f
  /\ (forall v s, forkScopeWith f <> IFork v s)
  /\ fork_value (forkScopeWith f) = None
  /\ forkNodes (forkScopeWith f) = 0%nat.
Proof.
  repeat split; try reflexivity.
  intros v s H; discriminate H.
Qed.

(** *** The interpreter on forks and races *)

Lemma fresh_ne (rt : Runtime) (p : FiberId) (fp : FiberState) :
  wellFormed rt -> fibers rt !! p = Some fp ->
  p <> nextId rt /\ p <> S (nextId rt).
Proof.
  intros Hwf Hp. split; intros Heq; rewrite Heq in Hp.
  - assert (Hnone := Hwf (nextId rt) (le_n _)).
    assert (Hboth := eq_trans (eq_sym Hp) Hnone). discriminate.
  - assert (Hnone := Hwf (S (nextId rt)) (le_S _ _ (le_n _))).
    assert (Hboth := eq_trans (eq_sym Hp) Hnone). discriminate.
Qed.


(** Fiber ids are never reused: every step keeps the fibers below
    [nextId]. *)
Lemma spawn_wellFormed (task : Effect) (scope : Scope) (rt : Runtime) :
  wellFormed rt -> wellFormed (spawn task scope rt).
Proof.
  intros Hwf i Hi. simpl in *.
  rewrite lookup_insert_ne by lia. apply Hwf. lia.
Qed.

Lemma update_wellFormed (rt : Runtime) (p : FiberId) (fp fp' : FiberState) :
  wellFormed rt -> fibers rt !! p = Some fp ->
  wellFormed {| fibers := <[p := fp']> (fibers rt); nextId := nextId rt |}.
Proof.
  intros Hwf Hp i Hi. simpl in *.
  destruct (decide (p = i)) as [Heq|Hne].
  - rewrite Heq in Hp. assert (Hnone := Hwf i Hi).
    assert (Hboth := eq_trans (eq_sym Hp) Hnone). discriminate.
  - rewrite lookup_insert_ne by exact Hne. apply Hwf, Hi.
Qed.

Lemma interpret_wellFormed (p : FiberId) (rt : Runtime) :
  wellFormed rt -> wellFormed (interpret p rt).
Proof.
  intros Hwf. unfold interpret.
  destruct (fibers rt !! p) as [fp|] eqn:Hp; [|exact Hwf].
  destruct (fresh_ne rt p fp Hwf Hp) as [Hl Hr].
  destruct (status fp); try exact Hwf.
  destruct (control fp) as [task| |]; try exact Hwf.
  destruct task as [prim|task target|f|l r lw rw target].
  - exact Hwf.
  - apply (update_wellFormed (spawn task (default (lifetime p) target) rt)
             p fp).
    + apply spawn_wellFormed, Hwf.
    + simpl. rewrite lookup_insert_ne by congruence. exact Hp.
  - apply (update_wellFormed rt p fp); assumption.
  - apply (update_wellFormed
             (spawn r (default (ephemeral p) target)
                    (spawn l (default (ephemeral p) target) rt)) p fp).
    + apply spawn_wellFormed, spawn_wellFormed, Hwf.
    + simpl. rewrite !lookup_insert_ne by congruence. exact Hp.
Qed.

Lemma complete_wellFormed (c : FiberId) (e : Exit) (rt : Runtime) :
  wellFormed rt -> wellFormed (complete c e rt).
Proof.
  intros Hwf. unfold complete.
  destruct (fibers rt !! c) as [fc|] eqn:Hc; [|exact Hwf].
  destruct (alive (status fc)); [|exact Hwf].
  intros i Hi. simpl in *. rewrite lookup_fmap.
  assert (Hnone := update_wellFormed rt c fc
                     (mkFiberState (Done e) (owner fc) (interrupted fc)
                                   (control fc)) Hwf Hc i Hi).
  simpl in Hnone. rewrite Hnone. reflexivity.
Qed.













End Primitives.

(** *** A small runtime to run the interpreter on *)




End Effect.

(* ===================================================================== *)
(** ** Cron.ts (src/unnamed/part_001) *)
(* ===================================================================== *)

Module Cron.

(** What [parseSegment] can observe of a JavaScript number: whether
    [Number.isInteger] holds, and then its integer value ([-0] is [0]: it
    compares and is stored in a [Set] like [0]).  [NaN], infinities, fractions
    and non-number values are [JNotInt]. *)
Inductive JSNumber : Type :=
| JInt (z : Z)
| JNotInt.

Definition isInteger (n : JSNumber) : bool :=
  match n with JInt _ => true | JNotInt => false end.

(** [Either.Either<R, L>] *)
Inductive Either (R L : Type) : Type :=
| Right (r : R)
| Left (l : L).
Arguments Right {R L} r.
Arguments Left {R L} l.

(** The message of a [ParseError]; the template strings of the source keep
    their parameters. *)
Inductive Message : Type :=
| InvalidNumberOfSegments         (* Invalid number of segments in cron expression *)
| StepNotInteger                  (* Expected step value to be a positive integer *)
| StepNotPositive                 (* Expected step value to be greater than 0 *)
| StepTooLarge (max : Z)          (* Expected step value to be less than ${max} *)
| ExpectedInteger                 (* Expected a positive integer *)
| ExpectedBetween (min max : Z)   (* Expected a value between ${min} and ${max} *)
| InvalidRange.                   (* Invalid value range *)

Record ParseError : Type := mkParseError {
  message : Message;
  input : option string
}.

Record SegmentOptions : Type := mkSegmentOptions {
  segment : string;
  min : Z;
  max : Z;
  aliases : option (gmap string Z)
}.

Definition minuteOptions : SegmentOptions :=
  {| segment := "minute"; min := 0; max := 59; aliases := None |}.

Definition hourOptions : SegmentOptions :=
  {| segment := "hour"; min := 0; max := 23; aliases := None |}.

Definition dayOptions : SegmentOptions :=
  {| segment := "day"; min := 1; max := 31; aliases := None |}.

Definition monthOptions : SegmentOptions :=
  {| segment := "month"; min := 1; max := 12;
     aliases := Some (list_to_map
       [("jan", 1); ("feb", 2); ("mar", 3); ("apr", 4); ("may", 5); ("jun", 6);
        ("jul", 7); ("aug", 8); ("sep", 9); ("oct", 10); ("nov", 11); ("dec", 12)]) |}.

Definition weekdayOptions : SegmentOptions :=
  {| segment := "weekday"; min := 0; max := 6;
     aliases := Some (list_to_map
       [("sun", 0); ("mon", 1); ("tue", 2); ("wed", 3); ("thu", 4); ("fri", 5);
        ("sat", 6)]) |}.

(** *** Strings *)

(** [s.indexOf(c)] for a one-character [c]; [None] is [-1]. *)
Fixpoint indexOf (c : ascii) (s : string) : option nat :=
  match s with
  | EmptyString => None
  | String a s' => if Ascii.eqb a c then Some O else S <$> indexOf c s'
  end.

(** [s.slice(0, n)] and [s.slice(n)] for [0 <= n]. *)
Fixpoint slice_to (n : nat) (s : string) : string :=
  match n, s with
  | S k, String a s' => String a (slice_to k s')
  | _, _ => EmptyString
  end.

Fixpoint slice_from (n : nat) (s : string) : string :=
  match n, s with
  | S k, String _ s' => slice_from k s'
  | _, _ => s
  end.

(** [s.split(c)] for a one-character separator: never the empty list. *)
Fixpoint split (c : ascii) (s : string) : list string :=
  match s with
  | EmptyString => [EmptyString]
  | String a s' =>
      if Ascii.eqb a c then EmptyString :: split c s'
      else match split c s' with
           | piece :: pieces => String a piece :: pieces
           | [] => [String a EmptyString]
           end
  end.

(** [String.isNonEmpty] *)
Definition isNonEmpty (s : string) : bool :=
  match s with EmptyString => false | _ => true end.

(** The keys every object literal inherits from [Object.prototype]:
    [aliases[k]] is then a value that is neither [undefined] nor a number.
    After lowering, only the first two can come up. *)
Definition inheritedKey (k : string) : bool :=
  bool_decide (k ∈ ["constructor"; "__proto__"; "hasOwnProperty";
                    "isPrototypeOf"; "propertyIsEnumerable"; "toLocaleString";
                    "toString"; "valueOf"; "__defineGetter__";
                    "__defineSetter__"; "__lookupGetter__"; "__lookupSetter__"]).

(** A stand-in for [Number] to run the parser with: the empty string is
    [0], a string of decimal digits is its value, and anything else is taken
    as not an integer.  And [toLocaleLowerCase] in a locale that lowers [A-Z]
    only. *)
Definition digit (a : ascii) : option Z :=
  let n := Z.of_nat (nat_of_ascii a) in
  if (48 <=? n) && (n <=? 57) then Some (n - 48) else None.

Fixpoint digits (acc : Z) (s : string) : JSNumber :=
  match s with
  | EmptyString => JInt acc
  | String a s' =>
      match digit a with
      | Some d => digits (10 * acc + d) s'
      | None => JNotInt
      end
  end.

Definition decimalNumber (s : string) : JSNumber := digits 0 s.

Definition lowerAscii (a : ascii) : ascii :=
  let n := nat_of_ascii a in
  if (65 <=? n)%nat && (n <=? 90)%nat then ascii_of_nat (n + 32) else a.

Fixpoint asciiLowerCase (s : string) : string :=
  match s with
  | EmptyString => EmptyString
  | String a s' => String (lowerAscii a) (asciiLowerCase s')
  end.

(** A stand-in for [Date] to run [next] with: minutes since the start of
    a year of twelve thirty-day months that begins on a Sunday; a setter
    replaces its component and lets an overflow carry, as [Date] does. *)
Definition calMinutes (t : Z) : Z := t mod 60.
Definition calHours (t : Z) : Z := (t / 60) mod 24.
Definition calDate (t : Z) : Z := (t / 1440) mod 30 + 1.
Definition calDay (t : Z) : Z := (t / 1440) mod 7.
Definition calMonth (t : Z) : Z := (t / 43200) mod 12.
Definition calSetMinutes (t v : Z) : Z := t - calMinutes t + v.
Definition calSetHours (t v : Z) : Z := t - calHours t * 60 + v * 60.
Definition calSetDate (t v : Z) : Z := t - (calDate t - 1) * 1440 + (v - 1) * 1440.
Definition calSetMonth (t v : Z) : Z := t - calMonth t * 43200 + v * 43200.
Definition calSetSeconds (t v : Z) : Z := t.

(** How one iteration of the loop of [parseSegment] ends. *)
Inductive FieldStep : Type :=
| Return (r : Either (gset Z) ParseError)
| Continue (values : gset Z).

Section Parser.

(** [Number(s)], the string-to-number conversion of the language, and
    [s.toLocaleLowerCase()], which depends on the host's locale. *)
Variable Number : string -> JSNumber.
Variable toLocaleLowerCase : string -> string.

(** [DateTime.TimeZone] *)
Variable TimeZone : Type.

Record Cron : Type := mkCron {
  tz : option TimeZone;
  minutes : gset Z;
  hours : gset Z;
  days : gset Z;
  months : gset Z;
  weekdays : gset Z
}.

(** [new Set(Arr.sort(values, N.Order))] *)
Definition sortedSet (values : gset Z) : gset Z :=
  list_to_set (merge_sort Z.le (elements values)).

Definition make (minutes hours days months weekdays : gset Z)
           (tz : option TimeZone) : Cron :=
  {| minutes := sortedSet minutes;
     hours := sortedSet hours;
     days := sortedSet days;
     months := sortedSet months;
     weekdays := sortedSet weekdays;
     tz := tz |}.

(** [aliases?.[field.toLocaleLowerCase()] ?? Number(field)] *)
Definition aliasOrValue (field : string) (aliases : option (gmap string Z))
  : JSNumber :=
  match aliases with
  | Some table =>
      match table !! toLocaleLowerCase field with
      | Some z => JInt z
      | None => if inheritedKey (toLocaleLowerCase field) then JNotInt
                else Number field
      end
  | None => Number field
  end.

Definition splitStep (input : string) : string * option JSNumber :=
  match indexOf "/" input with
  | Some seperator =>
      (slice_to seperator input, Some (Number (slice_from (S seperator) input)))
  | None => (input, None)
  end.

Definition splitRange (input : string) (aliases : option (gmap string Z))
  : JSNumber * option JSNumber :=
  match indexOf "-" input with
  | Some seperator =>
      (aliasOrValue (slice_to seperator input) aliases,
       Some (aliasOrValue (slice_from (S seperator) input) aliases))
  | None => (aliasOrValue input aliases, None)
  end.

(** [for (let i = lo; i <= hi; i += step) values.add(i)].  [fuel] bounds
    the number of iterations; [addRange_fuel] below shows that
    [hi - lo + 1] of them reach the exit test whenever [1 <= step]. *)
Fixpoint addRange (fuel : nat) (i hi step : Z) (values : gset Z) : gset Z :=
  match fuel with
  | O => values
  | S fuel' =>
      if i <=? hi then addRange fuel' (i + step) hi step ({[ i ]} ∪ values)
      else values
  end.

Definition forRange (lo hi step : Z) (values : gset Z) : gset Z :=
  addRange (Z.to_nat (hi - lo + 1)) lo hi step values.

(** The three checks on a step that is not [undefined]. *)
Definition checkStep (input : string) (options : SegmentOptions)
           (step : option JSNumber) : Either Z ParseError :=
  match step with
  | None => Right 1                                           (* step ?? 1 *)
  | Some JNotInt => Left (mkParseError StepNotInteger (Some input))
  | Some (JInt s) =>
      if s <? 1 then Left (mkParseError StepNotPositive (Some input))
      else if s >? max options
           then Left (mkParseError (StepTooLarge (max options)) (Some input))
           else Right s
  end.

(** One iteration of [for (const field of fields)] up to its last
    statement: it leaves the function with [return], or falls through to
    the capacity test with the enlarged [values].  A match on [JNotInt] is
    the test [!Number.isInteger(...)] of the source. *)
Definition parseField (input : string) (options : SegmentOptions)
           (field : string) (values : gset Z) : FieldStep :=
  let '(raw, step) := splitStep field in
  if String.eqb raw "*" && bool_decide (step = None) then Return (Right ∅)
  else
    match checkStep input options step with
    | Left e => Return (Left e)
    | Right stepOr1 =>
        if String.eqb raw "*" then
          Continue (forRange (min options) (max options) stepOr1 values)
        else
          match splitRange raw (aliases options) with
          | (JNotInt, _) =>
              Return (Left (mkParseError ExpectedInteger (Some input)))
          | (JInt left_, right_opt) =>
              if (left_ <? min options) || (left_ >? max options) then
                Return (Left (mkParseError
                                (ExpectedBetween (min options) (max options))
                                (Some input)))
              else
                match right_opt with
                | None => Continue ({[ left_ ]} ∪ values)
                | Some JNotInt =>
                    Return (Left (mkParseError ExpectedInteger (Some input)))
                | Some (JInt right_) =>
                    if (right_ <? min options) || (right_ >? max options) then
                      Return (Left (mkParseError
                                      (ExpectedBetween (min options) (max options))
                                      (Some input)))
                    else if left_ >? right_ then
                      Return (Left (mkParseError InvalidRange (Some input)))
                    else Continue (forRange left_ right_ stepOr1 values)
                end
          end
    end.

(** The loop: after each field, [if (values.size >= capacity) return
    Either.right(new Set())]; after the last one, [Either.right(values)]. *)
Fixpoint parseFields (input : string) (options : SegmentOptions)
         (fields : list string) (values : gset Z)
  : Either (gset Z) ParseError :=
  match fields with
  | [] => Right values
  | field :: rest =>
      let capacity := max options - min options + 1 in
      match parseField input options field values with
      | Return r => r
      | Continue values' =>
          if Z.of_nat (size values') >=? capacity then Right ∅
          else parseFields input options rest values'
      end
  end.

Definition parseSegment (input : string) (options : SegmentOptions)
  : Either (gset Z) ParseError :=
  parseFields input options (split "," input) ∅.

(** [Either.all] over the five keys of the struct, in the order they are
    written, then [Either.map] with [make]. *)
Definition parse (cron : string) (tz : option TimeZone)
  : Either Cron ParseError :=
  let segments := filter (fun s => isNonEmpty s = true) (split " " cron) in
  match segments with
  | [minutes; hours; days; months; weekdays] =>
      match parseSegment minutes minuteOptions with
      | Left e => Left e
      | Right minutes =>
      match parseSegment hours hourOptions with
      | Left e => Left e
      | Right hours =>
      match parseSegment days dayOptions with
      | Left e => Left e
      | Right days =>
      match parseSegment months monthOptions with
      | Left e => Left e
      | Right months =>
      match parseSegment weekdays weekdayOptions with
      | Left e => Left e
      | Right weekdays =>
          Right (make minutes hours days months weekdays tz)
      end end end end end
  | _ => Left (mkParseError InvalidNumberOfSegments (Some cron))
  end.

(** What [match] reads of [dateTime.toParts(adjusted)]. *)
Record Parts : Type := mkParts {
  p_minutes : Z;
  p_hours : Z;
  p_day : Z;
  p_month : Z;
  p_weekDay : Z
}.

(** internal/dateTime.ts: [unsafeMakeZoned] throws on an invalid input
    ([None]); [setZone] and [toParts] are total. *)
Variables (DateInput Zoned : Type).
Variable unsafeMakeZoned : DateInput -> option Zoned.
Variable setZone : Zoned -> TimeZone -> Zoned.
Variable toParts : Zoned -> Parts.

Definition partsOf (cron : Cron) (date : DateInput) : option Parts :=
  match unsafeMakeZoned date with
  | None => None
  | Some zoned =>
      let adjusted :=
        match tz cron with Some z => setZone zoned z | None => zoned end in
      Some (toParts adjusted)
  end.

Definition has (s : gset Z) (x : Z) : bool := bool_decide (x ∈ s).
Definition nonEmpty (s : gset Z) : bool := negb (Nat.eqb (size s) 0).

(** The decision of [match] once the parts of the date are known. *)
Definition matchParts (cron : Cron) (parts : Parts) : bool :=
  if nonEmpty (minutes cron) && negb (has (minutes cron) (p_minutes parts))
  then false
  else if nonEmpty (hours cron) && negb (has (hours cron) (p_hours parts))
  then false
  else if nonEmpty (months cron) && negb (has (months cron) (p_month parts))
  then false
  else if negb (nonEmpty (days cron)) && negb (nonEmpty (weekdays cron))
  then true
  else if negb (nonEmpty (weekdays cron))
  then has (days cron) (p_day parts)
  else if negb (nonEmpty (days cron))
  then has (weekdays cron) (p_weekDay parts)
  else has (days cron) (p_day parts) || has (weekdays cron) (p_weekDay parts).

(** [match(cron, date)]; [None] when [unsafeMakeZoned] throws. *)
Definition match_ (cron : Cron) (date : DateInput) : option bool :=
  matchParts cron <$> partsOf cron date.

(** *** [next] *)

(** The [Date] object the callback of [next] mutates, through the getters
    and setters it calls; a setter returns the date after the call. *)
Variable JSDate : Type.
Variables getUTCMonth getUTCDate getUTCDay getUTCHours getUTCMinutes
  : JSDate -> Z.
Variables setUTCMonth setUTCDate setUTCHours setUTCMinutes setUTCSeconds
          setUTCMilliseconds : JSDate -> Z -> JSDate.

(** How one iteration of the [for] loop of [next] ends: with [continue]
    on the moved date, or with [return]. *)
Inductive Iteration : Type :=
| ContinueWith (current : JSDate)
| Returned (current : JSDate).

(** [setUTCDate(getUTCDate() + 1); setUTCHours(0); setUTCMinutes(0)], the
    body the three day tests share. *)
Definition toNextDay (current : JSDate) : JSDate :=
  let current := setUTCDate current (getUTCDate current + 1) in
  let current := setUTCHours current 0 in
  setUTCMinutes current 0.

(** The body of [for (let i = 0; i < 10_000; i++)]. *)
Definition nextIteration (cron : Cron) (current : JSDate) : Iteration :=
  let restrictMinutes := nonEmpty (minutes cron) in
  let restrictHours := nonEmpty (hours cron) in
  let restrictDays := nonEmpty (days cron) in
  let restrictMonths := nonEmpty (months cron) in
  let restrictWeekdays := nonEmpty (weekdays cron) in
  let afterDay :=
    if restrictHours && negb (has (hours cron) (getUTCHours current)) then
      let current := setUTCHours current (getUTCHours current + 1) in
      ContinueWith (setUTCMinutes current 0)
    else if restrictMinutes && negb (has (minutes cron) (getUTCMinutes current))
    then ContinueWith (setUTCMinutes current (getUTCMinutes current + 1))
    else Returned current in
  if restrictMonths && negb (has (months cron) (getUTCMonth current + 1)) then
    let current := setUTCMonth current (getUTCMonth current + 1) in
    let current := setUTCDate current 1 in
    let current := setUTCHours current 0 in
    ContinueWith (setUTCMinutes current 0)
  else if restrictDays && restrictWeekdays then
    if negb (has (days cron) (getUTCDate current))
       && negb (has (weekdays cron) (getUTCDay current))
    then ContinueWith (toNextDay current)
    else afterDay
  else if restrictDays then
    if negb (has (days cron) (getUTCDate current))
    then ContinueWith (toNextDay current)
    else afterDay
  else if restrictWeekdays then
    if negb (has (weekdays cron) (getUTCDay current))
    then ContinueWith (toNextDay current)
    else afterDay
  else afterDay.

(** The loop; out of iterations is [throw new Error("Unable to find next
    cron date")], here [None]. *)
Fixpoint nextLoop (iterations : nat) (cron : Cron) (current : JSDate)
  : option JSDate :=
  match iterations with
  | O => None
  | S iterations' =>
      match nextIteration cron current with
      | Returned found => Some found
      | ContinueWith moved => nextLoop iterations' cron moved
      end
  end.

(** Where the loop starts: one minute on, seconds and milliseconds zeroed. *)
Definition nextMinute (current : JSDate) : JSDate :=
  let current := setUTCMinutes current (getUTCMinutes current + 1) in
  let current := setUTCSeconds current 0 in
  setUTCMilliseconds current 0.

(** The callback [next] hands to [dateTime.mutate]: the date it leaves in
    [current], or [None] when it throws. *)
Definition nextMutation (cron : Cron) (current : JSDate) : option JSDate :=
  nextLoop (Z.to_nat 10000) cron (nextMinute current).

(** The parts of a date as the loop of [next] reads them (months count
    from 1 in a [Cron]). *)
Definition partsOfDate (current : JSDate) : Parts :=
  {| p_minutes := getUTCMinutes current;
     p_hours := getUTCHours current;
     p_day := getUTCDate current;
     p_month := getUTCMonth current + 1;
     p_weekDay := getUTCDay current |}.

(** *** [equals] *)

(** [Arr.fromIterable(set)] on a set of a [Cron]: [make] built it from a
    sorted array, so it iterates in ascending order. *)
Definition fromIterable (s : gset Z) : list Z :=
  merge_sort Z.le (elements s).

(** [equivalence.array(equivalence.number)] (Equivalence.ts). *)
Variable restrictionsArrayEquals : list Z -> list Z -> bool.

Definition restrictionsEquals (self that : gset Z) : bool :=
  restrictionsArrayEquals (fromIterable self) (fromIterable that).

Definition Equivalence (self that : Cron) : bool :=
  restrictionsEquals (minutes self) (minutes that)
  && restrictionsEquals (hours self) (hours that)
  && restrictionsEquals (days self) (days that)
  && restrictionsEquals (months self) (months that)
  && restrictionsEquals (weekdays self) (weekdays that).

Definition equals (self that : Cron) : bool := Equivalence self that.

(** *** What the fields of a segment denote *)

(** The values one field adds to an empty set; [None] when the field
    leaves [parseSegment] on its own. *)
Definition fieldValues (input : string) (options : SegmentOptions)
           (field : string) : option (gset Z) :=
  match parseField input options field ∅ with
  | Continue values => Some values
  | Return _ => None
  end.

(** The number of segments [parse] finds in an expression. *)
Definition segmentsOf (cron : string) : list string :=
  filter (fun s => isNonEmpty s = true) (split " " cron).

(** The test [match] makes on the day: no restriction on either, or one of
    the two restrictions met. *)
Definition dayCheckPasses (cron : Cron) (parts : Parts) : Prop :=
  (days cron = ∅ /\ weekdays cron = ∅)
  \/ p_day parts ∈ days cron
  \/ p_weekDay parts ∈ weekdays cron.

(** *** Ranges and coverage *)

Definition capacityOf (options : SegmentOptions) : Z :=
  max options - min options + 1.

(** Every member lies inside the bounds of the segment. *)
Definition inRange (options : SegmentOptions) (s : gset Z) : Prop :=
  forall x, x ∈ s -> min options <= x <= max options.

(** Every value of the segment's range is a member. *)
Definition covers (options : SegmentOptions) (s : gset Z) : Prop :=
  forall x, min options <= x <= max options -> x ∈ s.

Definition rangeSet (options : SegmentOptions) : gset Z :=
  list_to_set (seqZ (min options) (capacityOf options)).

(** The values the fields of a segment spell out, before any
    normalisation: the loop of [parseSegment] without its capacity test.
    [None] when a field leaves the function on its own (a bare star or an
    error). *)
Fixpoint parsedValues (input : string) (options : SegmentOptions)
         (fields : list string) (values : gset Z) : option (gset Z) :=
  match fields with
  | [] => Some values
  | field :: rest =>
      match parseField input options field values with
      | Return _ => None
      | Continue values' => parsedValues input options rest values'
      end
  end.


(** The three tests [match] makes before it looks at the day: none of them
    returns [false]. *)
Definition timeChecksPass (cron : Cron) (parts : Parts) : Prop :=
  (minutes cron = ∅ \/ p_minutes parts ∈ minutes cron)
  /\ (hours cron = ∅ \/ p_hours parts ∈ hours cron)
  /\ (months cron = ∅ \/ p_month parts ∈ months cron).

(** *** The counting loop *)

Lemma addRange_mono fuel i hi step (values : gset Z) :
  values ⊆ addRange fuel i hi step values.
Proof.
  revert i values; induction fuel as [|fuel IH]; intros i values; simpl.
  - reflexivity.
  - destruct (i <=? hi); [|reflexivity].
    etransitivity; [|apply IH]. set_solver.
Qed.

Lemma addRange_elem fuel i hi step (values : gset Z) x :
  0 <= step ->
  x ∈ addRange fuel i hi step values -> x ∈ values \/ i <= x <= hi.
Proof.
  intros Hstep. revert i values.
  induction fuel as [|fuel IH]; intros i values; simpl; [tauto|].
  destruct (Z.leb_spec i hi) as [Hle|Hgt]; [|tauto].
  intros Hx. apply IH in Hx. destruct Hx as [Hx|Hx]; [|lia].
  apply elem_of_union in Hx as [Hx|Hx]; [|tauto].
  apply elem_of_singleton in Hx. lia.
Qed.

(** The fuel [forRange] gives is enough: from [hi - i + 1] iterations on,
    more fuel changes nothing, so the loop has left through its test. *)
Lemma addRange_fuel fuel fuel' i hi step (values : gset Z) :
  1 <= step ->
  hi - i + 1 <= Z.of_nat fuel -> hi - i + 1 <= Z.of_nat fuel' ->
  addRange fuel i hi step values = addRange fuel' i hi step values.
Proof.
  intros Hstep. revert fuel' i values.
  induction fuel as [|fuel IH]; intros [|fuel'] i values H1 H2; simpl;
    try reflexivity.
  - destruct (Z.leb_spec i hi); [lia|reflexivity].
  - destruct (Z.leb_spec i hi); [lia|reflexivity].
  - destruct (Z.leb_spec i hi); [|reflexivity].
    apply IH; lia.
Qed.

Lemma addRange_complete fuel i hi step (values : gset Z) k :
  1 <= step -> 0 <= k -> i + k * step <= hi ->
  hi - i + 1 <= Z.of_nat fuel ->
  i + k * step ∈ addRange fuel i hi step values.
Proof.
  intros Hstep. revert i values k.
  induction fuel as [|fuel IH]; intros i values k Hk Hhi Hfuel; simpl.
  - nia.
  - destruct (Z.leb_spec i hi) as [Hle|Hgt]; [|nia].
    destruct (Z.eq_dec k 0) as [->|Hne].
    + apply addRange_mono. set_solver by lia.
    + replace (i + k * step) with ((i + step) + (k - 1) * step) by ring.
      apply IH; [lia| |lia].
      replace ((i + step) + (k - 1) * step) with (i + k * step) by ring. lia.
Qed.

Lemma forRange_elem lo hi step (values : gset Z) x :
  0 <= step -> x ∈ forRange lo hi step values -> x ∈ values \/ lo <= x <= hi.
Proof. apply addRange_elem. Qed.

Lemma forRange_complete lo hi step (values : gset Z) k :
  1 <= step -> 0 <= k -> lo + k * step <= hi ->
  lo + k * step ∈ forRange lo hi step values.
Proof. intros; apply addRange_complete; try assumption. unfold forRange; lia. Qed.

(** *** Coverage is what the size test decides *)

Lemma elem_of_rangeSet options x :
  x ∈ rangeSet options <-> min options <= x <= max options.
Proof.
  unfold rangeSet, capacityOf. rewrite elem_of_list_to_set, elem_of_seqZ. lia.
Qed.

Lemma size_rangeSet options :
  size (rangeSet options) = Z.to_nat (capacityOf options).
Proof.
  unfold rangeSet. rewrite size_list_to_set by apply NoDup_seqZ.
  apply length_seqZ.
Qed.

Lemma size_covers options (s : gset Z) :
  inRange options s ->
  (capacityOf options <= Z.of_nat (size s) <-> covers options s).
Proof.
  intros Hin.
  assert (Hsub : s ⊆ rangeSet options).
  { intros x Hx. apply elem_of_rangeSet, Hin, Hx. }
  split.
  - intros Hsize x Hx.
    assert (Heq : s = rangeSet options).
    { apply set_subseteq_size_eq; [exact Hsub|].
      rewrite size_rangeSet. lia. }
    rewrite Heq. apply elem_of_rangeSet, Hx.
  - intros Hcov.
    assert (Hsup : rangeSet options ⊆ s).
    { intros x Hx. apply Hcov, elem_of_rangeSet, Hx. }
    apply subseteq_size in Hsup. rewrite size_rangeSet in Hsup. lia.
Qed.

(** *** One field, then the loop *)

Lemma checkStep_pos input options step s :
  checkStep input options step = Right s -> 1 <= s.
Proof.
  unfold checkStep. repeat case_match; intros; simplify_eq; lia.
Qed.

Lemma parseField_Return input options field (values s : gset Z) :
  parseField input options field values = Return (Right s) -> s = ∅.
Proof.
  unfold parseField. repeat case_match; intros; simplify_eq; reflexivity.
Qed.

Lemma parseField_Continue input options field (values values' : gset Z) :
  inRange options values ->
  parseField input options field values = Continue values' ->
  inRange options values'.
Proof.
  intros Hin. unfold parseField.
  repeat case_match; intros; simplify_eq;
    match goal with
    | H : checkStep _ _ _ = Right _ |- _ => apply checkStep_pos in H
    end;
    intros x Hx;
    repeat match goal with
           | H : (_ || _) = false |- _ => apply orb_false_iff in H as [? ?]
           end;
    first
      [ apply forRange_elem in Hx as [Hx|Hx]
      | apply elem_of_union in Hx as [Hx|Hx]; [apply elem_of_singleton in Hx|] ];
    auto; lia.
Qed.


(** An accepted segment is the empty set, or the values its fields spell
    out. *)
Lemma parseFields_parsed input options fields (values s : gset Z) :
  parseFields input options fields values = Right s ->
  s = ∅ \/ parsedValues input options fields values = Some s.
Proof.
  revert values. induction fields as [|field rest IH]; intros values; simpl.
  - intros [= <-]. auto.
  - destruct (parseField input options field values) as [r|values'] eqn:Hf.
    + intros ->. apply parseField_Return in Hf. auto.
    + case_match; [intros [= <-]; auto|]. apply IH.
Qed.




Lemma sortedSet_id (s : gset Z) : sortedSet s = s.
Proof.
  unfold sortedSet. apply set_eq. intros x.
  rewrite elem_of_list_to_set, merge_sort_Permutation, elem_of_elements.
  reflexivity.
Qed.

Lemma nonEmpty_false (s : gset Z) : nonEmpty s = false <-> s = ∅.
Proof.
  unfold nonEmpty. rewrite negb_false_iff, Nat.eqb_eq.
  split; [intros H; apply leibniz_equiv, size_empty_inv, H
         |intros ->; apply size_empty].
Qed.

Lemma nonEmpty_true (s : gset Z) : nonEmpty s = true <-> s <> ∅.
Proof.
  rewrite <- nonEmpty_false. destruct (nonEmpty s); split; congruence.
Qed.

Lemma has_true (s : gset Z) x : has s x = true <-> x ∈ s.
Proof. unfold has. apply bool_decide_eq_true. Qed.

Lemma timeChecksPass_matchParts cron parts :
  timeChecksPass cron parts ->
  matchParts cron parts =
    if negb (nonEmpty (days cron)) && negb (nonEmpty (weekdays cron))
    then true
    else if negb (nonEmpty (weekdays cron))
    then has (days cron) (p_day parts)
    else if negb (nonEmpty (days cron))
    then has (weekdays cron) (p_weekDay parts)
    else has (days cron) (p_day parts) || has (weekdays cron) (p_weekDay parts).
Proof.
  intros (Hm & Hh & Hmo). unfold matchParts.
  assert (Hgate : forall (s : gset Z) x,
             s = ∅ \/ x ∈ s -> nonEmpty s && negb (has s x) = false).
  { intros s x [->|Hx].
    - reflexivity.
    - apply has_true in Hx. rewrite Hx. apply andb_false_r. }
  rewrite !Hgate by assumption. reflexivity.
Qed.

(** *** Theorems *)


(** C9: when the minute, hour and month tests of [match] pass on a date:
    with both [days] and [weekdays] non-empty the result is [true] exactly
    when the day of the month is in [days] or the weekday is in
    [weekdays]; with exactly one of them non-empty only that set decides;
    with both empty the result is [true]. *)
Theorem match_day_or_weekday (cron : Cron) (date : DateInput) (parts : Parts) :
  partsOf cron date = Some parts ->
  timeChecksPass cron parts ->
  exists b,
    match_ cron date = Some b
    /\ (days cron <> ∅ -> weekdays cron <> ∅ ->
        (b = true <-> p_day parts ∈ days cron \/ p_weekDay parts ∈ weekdays cron))
    /\ (days cron <> ∅ -> weekdays cron = ∅ ->
        (b = true <-> p_day parts ∈ days cron))
    /\ (days cron = ∅ -> weekdays cron <> ∅ ->
        (b = true <-> p_weekDay parts ∈ weekdays cron))
    /\ (days cron = ∅ -> weekdays cron = ∅ -> b = true).
Proof.
  intros Hparts Hpass. unfold match_. rewrite Hparts. simpl.
  eexists; split; [reflexivity|].
  rewrite (timeChecksPass_matchParts _ _ Hpass).
  split; [|split; [|split]].
  - intros Hd Hw. apply nonEmpty_true in Hd, Hw. rewrite Hd, Hw. simpl.
    rewrite orb_true_iff, !has_true. reflexivity.
  - intros Hd Hw. apply nonEmpty_true in Hd. apply nonEmpty_false in Hw.
    rewrite Hd, Hw. simpl. apply has_true.
  - intros Hd Hw. apply nonEmpty_false in Hd. apply nonEmpty_true in Hw.
    rewrite Hd, Hw. simpl. apply has_true.
  - intros Hd Hw. apply nonEmpty_false in Hd, Hw. rewrite Hd, Hw. reflexivity.
Qed.

(** *** More on the counting loop *)

Lemma addRange_elem_step fuel i hi step (values : gset Z) x :
  x ∈ addRange fuel i hi step values ->
  x ∈ values \/ exists k, 0 <= k /\ x = i + k * step /\ x <= hi.
Proof.
  revert i values.
  induction fuel as [|fuel IH]; intros i values; simpl; [tauto|].
  destruct (Z.leb_spec i hi) as [Hle|Hgt]; [|tauto].
  intros Hx. apply IH in Hx as [Hx|(k & Hk & -> & Hhi)].
  - apply elem_of_union in Hx as [Hx|Hx]; [|tauto].
    apply elem_of_singleton in Hx. right. exists 0. lia.
  - right. exists (k + 1). split; [lia|]. split; [ring|lia].
Qed.

Lemma addRange_union fuel i hi step (values : gset Z) :
  addRange fuel i hi step values = addRange fuel i hi step ∅ ∪ values.
Proof.
  revert i values.
  induction fuel as [|fuel IH]; intros i values; simpl.
  - rewrite (left_id_L ∅ (∪)). reflexivity.
  - destruct (i <=? hi); [|rewrite (left_id_L ∅ (∪)); reflexivity].
    rewrite (IH _ ({[ i ]} ∪ values)), (IH _ ({[ i ]} ∪ ∅)).
    rewrite (right_id_L ∅ (∪)), (assoc_L (∪)). reflexivity.
Qed.

Lemma forRange_union lo hi step (values : gset Z) :
  forRange lo hi step values = forRange lo hi step ∅ ∪ values.
Proof. apply addRange_union. Qed.

(** The values a stepped range adds are those at a whole number of steps
    from its lower end, up to its upper end. *)
Theorem forRange_exact lo hi step (values : gset Z) x :
  1 <= step ->
  (x ∈ forRange lo hi step values
   <-> x ∈ values \/ (lo <= x <= hi /\ (x - lo) mod step = 0)).
Proof.
  intros Hstep. split.
  - intros Hx. apply addRange_elem_step in Hx as [Hx|(k & Hk & -> & Hhi)];
      [tauto|]. right. split; [nia|].
    replace (lo + k * step - lo) with (k * step) by ring.
    apply Z_mod_mult.
  - intros [Hx|[[Hlo Hhi] Hmod]].
    + apply addRange_mono, Hx.
    + apply Z.mod_divide in Hmod; [|lia]. destruct Hmod as [k Hk].
      replace x with (lo + k * step) by lia.
      apply forRange_complete; [exact Hstep|nia|lia].
Qed.

(** *** What the fields denote *)

Lemma parseField_values input options field (values : gset Z) :
  parseField input options field values
  = match parseField input options field ∅ with
    | Return r => Return r
    | Continue added => Continue (added ∪ values)
    end.
Proof.
  unfold parseField. repeat case_match; simplify_eq; try reflexivity; f_equal.
  all: first [ apply forRange_union | rewrite (right_id_L ∅ (∪)); reflexivity ].
Qed.

Lemma parsedValues_cons input options field rest (values : gset Z) :
  parsedValues input options (field :: rest) values
  = match fieldValues input options field with
    | Some added => parsedValues input options rest (added ∪ values)
    | None => None
    end.
Proof.
  simpl. unfold fieldValues. rewrite parseField_values.
  destruct (parseField input options field ∅); reflexivity.
Qed.

Lemma parsedValues_Permutation input options fields fields' :
  fields ≡ₚ fields' ->
  forall values : gset Z,
    parsedValues input options fields values
    = parsedValues input options fields' values.
Proof.
  induction 1 as [|field l l' _ IH|f1 f2 l|l1 l2 l3 _ IH1 _ IH2]; intros values.
  - reflexivity.
  - rewrite !parsedValues_cons. destruct (fieldValues _ _ field); auto.
  - rewrite !parsedValues_cons.
    destruct (fieldValues _ _ f1) as [a1|] eqn:H1,
             (fieldValues _ _ f2) as [a2|] eqn:H2;
      rewrite ?parsedValues_cons, ?H1, ?H2; try reflexivity.
    rewrite !(assoc_L (∪)), (comm_L (∪) a2 a1). reflexivity.
  - rewrite IH1. apply IH2.
Qed.

Lemma parsedValues_union input options fields (values v : gset Z) :
  parsedValues input options fields values = Some v ->
  exists added,
    mapM (fieldValues input options) fields = Some added
    /\ v = ⋃ added ∪ values.
Proof.
  revert values. induction fields as [|field rest IH]; intros values.
  - intros [= <-]. exists []. split; [reflexivity|].
    simpl. rewrite (left_id_L ∅ (∪)). reflexivity.
  - rewrite parsedValues_cons.
    destruct (fieldValues input options field) as [a|] eqn:Hf; [|discriminate].
    intros Hv. apply IH in Hv as (added & Hadded & ->).
    exists (a :: added). split.
    + simpl. rewrite Hf. simpl. rewrite Hadded. reflexivity.
    + simpl. rewrite (assoc_L (∪)), (comm_L (∪) (⋃ added) a). reflexivity.
Qed.

Lemma parsedValues_mono input options fields (values v : gset Z) :
  parsedValues input options fields values = Some v -> values ⊆ v.
Proof.
  intros Hv. apply parsedValues_union in Hv as (added & _ & ->).
  apply union_subseteq_r.
Qed.

Lemma parseFields_of_parsed input options fields (values v : gset Z) :
  inRange options values ->
  Z.of_nat (size values) < capacityOf options ->
  parsedValues input options fields values = Some v ->
  parseFields input options fields values
  = Right (if Z.of_nat (size v) >=? capacityOf options then ∅ else v).
Proof.
  revert values. induction fields as [|field rest IH]; intros values Hin Hsz; simpl.
  - intros [= <-]. destruct (Z.geb_spec (Z.of_nat (size values)) (capacityOf options));
      [lia|reflexivity].
  - destruct (parseField input options field values) as [r|values'] eqn:Hf;
      [discriminate|].
    intros Hv. fold (capacityOf options).
    destruct (Z.geb_spec (Z.of_nat (size values')) (capacityOf options)) as [Hge|Hlt].
    + apply parsedValues_mono, subseteq_size in Hv.
      destruct (Z.geb_spec (Z.of_nat (size v)) (capacityOf options));
        [reflexivity|lia].
    + apply IH; [|lia|exact Hv]. eapply parseField_Continue; eauto.
Qed.

Lemma parsedValues_inRange input options fields (values v : gset Z) :
  inRange options values ->
  parsedValues input options fields values = Some v ->
  inRange options v.
Proof.
  revert values. induction fields as [|field rest IH]; intros values Hin; simpl.
  - intros [= <-]. exact Hin.
  - destruct (parseField input options field values) as [r|values'] eqn:Hf;
      [discriminate|].
    apply IH. eapply parseField_Continue; eauto.
Qed.

(** When every field of a segment is well formed and none is a bare star,
    the segment is the union of what its fields denote, or the empty set
    when that union is the whole range. *)
Theorem parseFields_union input options fields (v : gset Z) :
  min options <= max options ->
  parsedValues input options fields ∅ = Some v ->
  (exists added,
      mapM (fieldValues input options) fields = Some added /\ v = ⋃ added)
  /\ (covers options v -> parseFields input options fields ∅ = Right ∅)
  /\ (~ covers options v -> parseFields input options fields ∅ = Right v).
Proof.
  intros Hwf Hv.
  assert (Hin0 : inRange options ∅)
    by (intros x Hx; exfalso; exact (not_elem_of_empty x Hx)).
  assert (Hsz0 : Z.of_nat (size (∅ : gset Z)) < capacityOf options).
  { rewrite size_empty. unfold capacityOf. lia. }
  pose proof (parsedValues_inRange _ _ _ _ _ Hin0 Hv) as Hin.
  pose proof (parseFields_of_parsed _ _ _ _ _ Hin0 Hsz0 Hv) as Hp.
  split; [|split].
  - apply parsedValues_union in Hv as (added & Hadded & ->).
    exists added. split; [exact Hadded|].
    rewrite (right_id_L ∅ (∪)). reflexivity.
  - intros Hcov. apply size_covers in Hcov; [|exact Hin].
    rewrite Hp. destruct (Z.geb_spec (Z.of_nat (size v)) (capacityOf options));
      [reflexivity|lia].
  - intros Hcov. rewrite Hp.
    destruct (Z.geb_spec (Z.of_nat (size v)) (capacityOf options)) as [Hge|];
      [|reflexivity].
    exfalso. apply Hcov. apply size_covers; [exact Hin|lia].
Qed.

(** The order of well-formed fields, none a bare star, does not matter. *)
Theorem parseFields_order_irrelevant input options fields fields' (v : gset Z) :
  min options <= max options ->
  parsedValues input options fields ∅ = Some v ->
  fields ≡ₚ fields' ->
  parseFields input options fields' ∅ = parseFields input options fields ∅.
Proof.
  intros Hwf Hv Hperm.
  assert (Hin0 : inRange options ∅)
    by (intros x Hx; exfalso; exact (not_elem_of_empty x Hx)).
  assert (Hsz0 : Z.of_nat (size (∅ : gset Z)) < capacityOf options).
  { rewrite size_empty. unfold capacityOf. lia. }
  pose proof Hv as Hv'. rewrite (parsedValues_Permutation _ _ _ _ Hperm) in Hv'.
  rewrite (parseFields_of_parsed _ _ _ _ _ Hin0 Hsz0 Hv).
  rewrite (parseFields_of_parsed _ _ _ _ _ Hin0 Hsz0 Hv').
  reflexivity.
Qed.

(** *** Errors of [parse] *)

Lemma checkStep_Left input options step e :
  checkStep input options step = Left e ->
  exists m, e = mkParseError m (Some input) /\ m <> InvalidNumberOfSegments.
Proof.
  unfold checkStep. repeat case_match; intros; simplify_eq;
    eexists; (split; [reflexivity|discriminate]).
Qed.

Lemma parseField_Left input options field (values : gset Z) e :
  parseField input options field values = Return (Left e) ->
  exists m, e = mkParseError m (Some input) /\ m <> InvalidNumberOfSegments.
Proof.
  unfold parseField. repeat case_match; intros; simplify_eq;
    try (eexists; (split; [reflexivity|discriminate])).
  eapply checkStep_Left; eassumption.
Qed.

Lemma parseFields_Left input options fields (values : gset Z) e :
  parseFields input options fields values = Left e ->
  exists m, e = mkParseError m (Some input) /\ m <> InvalidNumberOfSegments.
Proof.
  revert values. induction fields as [|field rest IH]; intros values; simpl;
    [discriminate|].
  destruct (parseField input options field values) as [r|values'] eqn:Hf.
  - intros ->. eapply parseField_Left; eassumption.
  - case_match; [discriminate|]. apply IH.
Qed.

(** An expression that does not have five segments is refused with the
    whole expression as the error's input; with five segments, an error is
    about one of them and names it. *)
Theorem parse_errors (cron : string) (tz : option TimeZone) :
  (length (segmentsOf cron) <> 5%nat ->
   parse cron tz = Left (mkParseError InvalidNumberOfSegments (Some cron)))
  /\ (forall e,
         length (segmentsOf cron) = 5%nat ->
         parse cron tz = Left e ->
         exists m seg,
           e = mkParseError m (Some seg)
           /\ m <> InvalidNumberOfSegments
           /\ seg ∈ segmentsOf cron).
Proof.
  unfold parse, segmentsOf.
  destruct (filter _ (split " " cron)) as [|m [|h [|d [|mo [|w [|]]]]]];
    simpl; (split; [intros Hlen; try reflexivity; exfalso; apply Hlen; reflexivity|]);
    intros e Hlen; try discriminate Hlen.
  intros He.
  assert (Hseg : forall seg options,
             seg ∈ [m; h; d; mo; w] ->
             parseSegment seg options = Left e ->
             exists m0 seg0,
               e = mkParseError m0 (Some seg0)
               /\ m0 <> InvalidNumberOfSegments /\ seg0 ∈ [m; h; d; mo; w]).
  { intros seg options Hin Hl. apply parseFields_Left in Hl as (m0 & -> & Hm0).
    exists m0, seg. auto. }
  destruct (parseSegment m minuteOptions) eqn:Hm;
    [|injection He as <-; eapply Hseg; [|exact Hm]; repeat constructor].
  destruct (parseSegment h hourOptions) eqn:Hh;
    [|injection He as <-; eapply Hseg; [|exact Hh]; repeat constructor].
  destruct (parseSegment d dayOptions) eqn:Hd;
    [|injection He as <-; eapply Hseg; [|exact Hd]; repeat constructor].
  destruct (parseSegment mo monthOptions) eqn:Hmo;
    [|injection He as <-; eapply Hseg; [|exact Hmo]; repeat constructor].
  destruct (parseSegment w weekdayOptions) eqn:Hw;
    [discriminate|injection He as <-; eapply Hseg; [|exact Hw]; repeat constructor].
Qed.

(** *** [match], in full *)

Lemma has_empty x : has ∅ x = false.
Proof. reflexivity. Qed.

Lemma check_passes (s : gset Z) x :
  nonEmpty s && negb (has s x) = false <-> s = ∅ \/ x ∈ s.
Proof.
  rewrite andb_false_iff, negb_false_iff, nonEmpty_false, has_true.
  reflexivity.
Qed.

(** [match] accepts a date exactly when each of the minute, hour and
    month sets is empty or holds the date's value, and the day sets are
    both empty or one of them holds the date's day of month or weekday. *)
Theorem matchParts_iff (cron : Cron) (parts : Parts) :
  matchParts cron parts = true
  <-> timeChecksPass cron parts /\ dayCheckPasses cron parts.
Proof.
  unfold matchParts, timeChecksPass, dayCheckPasses.
  rewrite <- !check_passes.
  destruct (nonEmpty (minutes cron) && negb (has (minutes cron) (p_minutes parts)));
    [split; [discriminate|intros [[? _] _]; discriminate]|].
  destruct (nonEmpty (hours cron) && negb (has (hours cron) (p_hours parts)));
    [split; [discriminate|intros [(_ & ? & _) _]; discriminate]|].
  destruct (nonEmpty (months cron) && negb (has (months cron) (p_month parts)));
    [split; [discriminate|intros [(_ & _ & ?) _]; discriminate]|].
  rewrite <- !has_true.
  destruct (nonEmpty (days cron)) eqn:Hd, (nonEmpty (weekdays cron)) eqn:Hw; simpl.
  - apply nonEmpty_true in Hd, Hw. rewrite orb_true_iff. tauto.
  - apply nonEmpty_true in Hd. apply nonEmpty_false in Hw. rewrite Hw, has_empty.
    split; [tauto|]. intros [_ [[? _]|[?|?]]]; [contradiction|assumption|discriminate].
  - apply nonEmpty_false in Hd. apply nonEmpty_true in Hw. rewrite Hd, has_empty.
    split; [tauto|]. intros [_ [[_ ?]|[?|?]]]; [contradiction|discriminate|assumption].
  - apply nonEmpty_false in Hd, Hw. split; [|reflexivity]. intros _.
    split; [repeat split; reflexivity|]. left. split; assumption.
Qed.

(** *** [next] *)

Lemma nextIteration_Returned (cron : Cron) (current found : JSDate) :
  nextIteration cron current = Returned found <->
  found = current /\ matchParts cron (partsOfDate current) = true.
Proof.
  unfold nextIteration, matchParts, partsOfDate; simpl.
  destruct (nonEmpty (minutes cron)), (nonEmpty (hours cron)),
    (nonEmpty (days cron)), (nonEmpty (months cron)), (nonEmpty (weekdays cron)),
    (has (minutes cron) (getUTCMinutes current)),
    (has (hours cron) (getUTCHours current)),
    (has (days cron) (getUTCDate current)),
    (has (months cron) (getUTCMonth current + 1)),
    (has (weekdays cron) (getUTCDay current));
    simpl; split;
    solve [ intros [= ->]; split; reflexivity
          | intros [-> _]; reflexivity
          | discriminate
          | intros [_ ?]; discriminate ].
Qed.

Lemma nextLoop_found iterations (cron : Cron) (current found : JSDate) :
  nextLoop iterations cron current = Some found ->
  matchParts cron (partsOfDate found) = true.
Proof.
  revert current. induction iterations as [|n IH]; intros current; simpl;
    [discriminate|].
  destruct (nextIteration cron current) as [moved|found'] eqn:Hit.
  - apply IH.
  - intros [= <-]. apply nextIteration_Returned in Hit as [-> Hm]. exact Hm.
Qed.

(** The date the callback of [next] stops on satisfies the expression:
    [match] accepts its parts. *)
Theorem next_found_matches (cron : Cron) (current found : JSDate) :
  nextMutation cron current = Some found ->
  matchParts cron (partsOfDate found) = true.
Proof. apply nextLoop_found. Qed.

(** When the start of the next minute already satisfies the expression,
    the callback of [next] stops there at once. *)
Theorem next_stops_at_next_minute (cron : Cron) (current : JSDate) :
  matchParts cron (partsOfDate (nextMinute current)) = true ->
  nextMutation cron current = Some (nextMinute current).
Proof.
  intros Hm. unfold nextMutation.
  replace (Z.to_nat 10000) with (S (Z.to_nat 9999)) by lia. simpl.
  destruct (nextIteration cron (nextMinute current)) as [moved|found] eqn:Hit.
  - assert (Hr : nextIteration cron (nextMinute current)
                 = Returned (nextMinute current))
      by (apply nextIteration_Returned; auto).
    congruence.
  - apply nextIteration_Returned in Hit as [-> _]. reflexivity.
Qed.

(** *** Spaces around an expression *)

Lemma split_nonempty c s : split c s <> [].
Proof.
  destruct s as [|a s']; simpl; [discriminate|].
  destruct (Ascii.eqb a c); [discriminate|].
  destruct (split c s'); discriminate.
Qed.

Lemma split_sep_end c s :
  split c (s +:+ String c EmptyString) = split c s ++ [EmptyString].
Proof.
  induction s as [|a s' IH]; simpl.
  - rewrite Ascii.eqb_refl. reflexivity.
  - rewrite IH. destruct (Ascii.eqb a c); [reflexivity|].
    pose proof (split_nonempty c s') as Hne.
    destruct (split c s') as [|piece pieces]; [contradiction|reflexivity].
Qed.

Lemma segmentsOf_padding cron :
  segmentsOf (" " +:+ cron) = segmentsOf cron
  /\ segmentsOf (cron +:+ " ") = segmentsOf cron.
Proof.
  unfold segmentsOf. split.
  - reflexivity.
  - rewrite split_sep_end, filter_app. simpl.
    rewrite filter_cons_False by (simpl; discriminate).
    rewrite filter_nil. apply app_nil_r.
Qed.

Lemma parse_segmentsOf cron cron' (tz : option TimeZone) :
  segmentsOf cron' = segmentsOf cron ->
  length (segmentsOf cron) = 5%nat ->
  parse cron' tz = parse cron tz.
Proof.
  unfold parse. fold (segmentsOf cron) (segmentsOf cron'). intros ->.
  destruct (segmentsOf cron) as [|m [|h [|d [|mo [|w [|]]]]]];
    simpl; intros Hlen; try discriminate Hlen. reflexivity.
Qed.

(** A space before or after an expression of five segments changes
    nothing: the result, an error included, is the same. *)
Theorem parse_padding (cron : string) (tz : option TimeZone) :
  length (segmentsOf cron) = 5%nat ->
  parse (" " +:+ cron) tz = parse cron tz
  /\ parse (cron +:+ " ") tz = parse cron tz.
Proof.
  intros Hlen. destruct (segmentsOf_padding cron) as [Hl Hr].
  split; apply parse_segmentsOf; assumption.
Qed.

(** *** An empty field *)

(** [Number("")] is [0] and the empty string has no letters to lower. *)
Hypothesis Number_empty : Number "" = JInt 0.
Hypothesis toLocaleLowerCase_empty : toLocaleLowerCase "" = "".

(** An empty field (as in ["5,"] or ["1,,2"]) is read as the value 0:
    it adds 0 where the segment's range starts at 0 or below, and is out
    of range otherwise. *)
Theorem parseField_empty input options (values : gset Z) :
  match aliases options with
  | Some table => table !! "" = None
  | None => True
  end ->
  max options >= 0 ->
  parseField input options "" values
  = if 0 <? min options
    then Return (Left (mkParseError
                         (ExpectedBetween (min options) (max options))
                         (Some input)))
    else Continue ({[ 0 ]} ∪ values).
Proof.
  intros Hal Hmax. unfold parseField, splitStep, splitRange; simpl.
  assert (Ha : aliasOrValue "" (aliases options) = JInt 0).
  { unfold aliasOrValue. destruct (aliases options) as [table|];
      [|exact Number_empty].
    rewrite toLocaleLowerCase_empty, Hal. exact Number_empty. }
  rewrite Ha.
  destruct (Z.ltb_spec 0 (min options)); simpl; [reflexivity|].
  destruct (Z.gtb_spec 0 (max options)); [lia|reflexivity].
Qed.

(** *** [equals] *)

Lemma fromIterable_inj (s1 s2 : gset Z) :
  fromIterable s1 = fromIterable s2 -> s1 = s2.
Proof.
  intros H. rewrite <- (sortedSet_id s1), <- (sortedSet_id s2).
  unfold sortedSet. fold (fromIterable s1). fold (fromIterable s2).
  rewrite H. reflexivity.
Qed.

(** [equivalence.array(equivalence.number)] holds of two arrays of
    integers exactly when they are the same array. *)
Hypothesis restrictionsArrayEquals_spec :
  forall l1 l2, restrictionsArrayEquals l1 l2 = true <-> l1 = l2.

(** Two expressions are [equals] exactly when their five sets are the
    same; the time zone is not compared. *)
Theorem equals_iff (self that : Cron) :
  equals self that = true
  <-> minutes self = minutes that
      /\ hours self = hours that
      /\ days self = days that
      /\ months self = months that
      /\ weekdays self = weekdays that.
Proof.
  assert (Hr : forall s1 s2 : gset Z, restrictionsEquals s1 s2 = true <-> s1 = s2).
  { intros s1 s2. unfold restrictionsEquals.
    rewrite restrictionsArrayEquals_spec. split.
    - apply fromIterable_inj.
    - intros ->. reflexivity. }
  unfold equals, Equivalence. rewrite !andb_true_iff, !Hr. tauto.
Qed.

End Parser.

Arguments mkCron {TimeZone} tz minutes hours days months weekdays.
Arguments tz {TimeZone} c.
Arguments minutes {TimeZone} c.
Arguments hours {TimeZone} c.
Arguments days {TimeZone} c.
Arguments months {TimeZone} c.
Arguments weekdays {TimeZone} c.

(** *** The parser on decimal numerals and ASCII letters *)

Definition parseAscii (cron : string) : Either (Cron unit) ParseError :=
  parse decimalNumber asciiLowerCase unit cron None.

(** Dates given by their parts, in the zone they are to be read in. *)
Definition matchAscii (cron : Cron unit) (date : Parts) : option bool :=
  match_ unit Parts Parts Some (fun zoned _ => zoned) (fun zoned => zoned)
         cron date.

(** The example of the documentation of [parse]: at 04:00 on every
    day-of-month from 8 through 14. *)
Example parse_doc_example :
  parseAscii "0 4 8-14 * *"
  = Right (make unit {[ 0 ]} {[ 4 ]} (list_to_set [8; 9; 10; 11; 12; 13; 14])
                ∅ ∅ None).
Proof. vm_compute. reflexivity. Qed.

Example parse_full_ranges_are_empty :
  parseAscii "*/1 0-22,23 1-31 JAN-dec sun,1-6"
  = Right (mkCron None ∅ ∅ ∅ ∅ ∅).
Proof. vm_compute. reflexivity. Qed.

Example parse_rejects_out_of_bounds :
  parseAscii "60 * * * *"
  = Left (mkParseError (ExpectedBetween 0 59) (Some "60")).
Proof. vm_compute. reflexivity. Qed.

(** The example of the documentation of [match]: 2021-01-08 was a Friday. *)
Example match_doc_example :
  matchAscii (mkCron None {[ 0 ]} {[ 4 ]} (list_to_set [8; 9; 10; 11; 12; 13; 14]) ∅ ∅)
             (mkParts 0 4 8 1 5) = Some true
  /\ matchAscii (mkCron None {[ 0 ]} {[ 4 ]} (list_to_set [8; 9; 10; 11; 12; 13; 14]) ∅ ∅)
                (mkParts 0 5 8 1 5) = Some false.
Proof. split; vm_compute; reflexivity. Qed.

(** Day of month and weekday both given: either one is enough. *)
Example match_day_or_weekday_example :
  matchAscii (mkCron None ∅ ∅ {[ 13 ]} ∅ {[ 5 ]}) (mkParts 30 9 8 1 5) = Some true
  /\ matchAscii (mkCron None ∅ ∅ {[ 13 ]} ∅ {[ 5 ]}) (mkParts 30 9 13 1 3) = Some true
  /\ matchAscii (mkCron None ∅ ∅ {[ 13 ]} ∅ {[ 5 ]}) (mkParts 30 9 14 1 4) = Some false.
Proof. repeat split; vm_compute; reflexivity. Qed.


Lemma match_day_or_weekday_witness :
  matchAscii (mkCron None {[ 0 ]} {[ 4 ]} {[ 8 ]} ∅ {[ 1 ]})
             (mkParts 0 4 8 1 5) = Some true.
Proof.
  destruct (match_day_or_weekday unit Parts Parts Some
              (fun zoned _ => zoned) (fun zoned => zoned)
              (mkCron None {[ 0 ]} {[ 4 ]} {[ 8 ]} ∅ {[ 1 ]})
              (mkParts 0 4 8 1 5) (mkParts 0 4 8 1 5))
    as (b & Hb & Hboth & _).
  - reflexivity.
  - repeat split; simpl; [right | right | left]; vm_compute; reflexivity.
  - unfold matchAscii. rewrite Hb. f_equal. apply Hboth.
    + vm_compute; discriminate.
    + vm_compute; discriminate.
    + left. vm_compute; reflexivity.
Defined.

(** *** [next] and [equals] on the stand-ins *)

Definition nextCal (cron : Cron unit) (current : Z) : option Z :=
  nextMutation unit Z calMonth calDate calDay calHours calMinutes
               calSetMonth calSetDate calSetHours calSetMinutes
               calSetSeconds calSetSeconds cron current.

Definition partsCal (current : Z) : Parts :=
  partsOfDate Z calMonth calDate calDay calHours calMinutes current.

Definition equalsByList (self that : Cron unit) : bool :=
  equals unit (fun l1 l2 => bool_decide (l1 = l2)) self that.

(** The example of the documentation of [next]: from the first of the
    month at 00:00 to the eighth at 04:00. *)
Example next_doc_example :
  nextCal (mkCron None {[ 0 ]} {[ 4 ]} (list_to_set [8; 9; 10; 11; 12; 13; 14]) ∅ ∅) 0
  = Some (7 * 1440 + 4 * 60).
Proof. vm_compute. reflexivity. Qed.

(** No thirty-first day in this calendar: the loop gives up. *)
Example next_gives_up :
  nextCal (mkCron None ∅ ∅ {[ 31 ]} ∅ ∅) 0 = None.
Proof. vm_compute. reflexivity. Qed.

Lemma forRange_exact_witness : 30 ∈ forRange 0 59 15 ∅.
Proof.
  apply (forRange_exact 0 59 15 ∅ 30); [lia|].
  right. split; [lia|reflexivity].
Defined.

Lemma parseFields_union_witness :
  exists added,
    mapM (fieldValues decimalNumber asciiLowerCase "1-5,10" minuteOptions)
         ["1-5"; "10"] = Some added
    /\ (list_to_set [1; 2; 3; 4; 5; 10] : gset Z) = ⋃ added.
Proof.
  destruct (parseFields_union decimalNumber asciiLowerCase "1-5,10"
              minuteOptions ["1-5"; "10"] (list_to_set [1; 2; 3; 4; 5; 10]))
    as [H _].
  - simpl. lia.
  - vm_compute. reflexivity.
  - exact H.
Defined.

Lemma parseFields_order_irrelevant_witness :
  parseFields decimalNumber asciiLowerCase "10,1-5" minuteOptions
              ["10"; "1-5"] ∅
  = parseFields decimalNumber asciiLowerCase "10,1-5" minuteOptions
                ["1-5"; "10"] ∅.
Proof.
  apply (parseFields_order_irrelevant decimalNumber asciiLowerCase "10,1-5"
           minuteOptions ["1-5"; "10"] ["10"; "1-5"]
           (list_to_set [1; 2; 3; 4; 5; 10])).
  - simpl. lia.
  - vm_compute. reflexivity.
  - apply perm_swap.
Defined.

Lemma parse_errors_witness :
  parseAscii "1 2 3"
  = Left (mkParseError InvalidNumberOfSegments (Some "1 2 3")).
Proof.
  apply (parse_errors decimalNumber asciiLowerCase unit "1 2 3" None).
  vm_compute. discriminate.
Defined.

Lemma next_found_matches_witness :
  matchParts unit
    (mkCron None {[ 0 ]} {[ 4 ]} (list_to_set [8; 9; 10; 11; 12; 13; 14]) ∅ ∅)
    (partsCal (7 * 1440 + 4 * 60)) = true.
Proof.
  apply (next_found_matches unit Z calMonth calDate calDay calHours calMinutes
           calSetMonth calSetDate calSetHours calSetMinutes
           calSetSeconds calSetSeconds _ 0).
  vm_compute. reflexivity.
Defined.

Lemma next_stops_at_next_minute_witness :
  nextCal (mkCron None ∅ {[ 0 ]} ∅ ∅ ∅) 0 = Some 1.
Proof.
  apply (next_stops_at_next_minute unit Z calMonth calDate calDay calHours
           calMinutes calSetMonth calSetDate calSetHours calSetMinutes
           calSetSeconds calSetSeconds (mkCron None ∅ {[ 0 ]} ∅ ∅ ∅) 0).
  vm_compute. reflexivity.
Defined.

Lemma parse_padding_witness :
  parseAscii " 0 4 8-14 * * " = parseAscii "0 4 8-14 * *".
Proof.
  destruct (parse_padding decimalNumber asciiLowerCase unit " 0 4 8-14 * *" None)
    as [_ Hr]; [reflexivity|].
  destruct (parse_padding decimalNumber asciiLowerCase unit "0 4 8-14 * *" None)
    as [Hl _]; [reflexivity|].
  unfold parseAscii. etransitivity; [exact Hr|exact Hl].
Defined.

(** ["5,"] in the minute segment: minutes 0 and 5. *)
Lemma parseField_empty_witness :
  parseField decimalNumber asciiLowerCase "5," minuteOptions "" {[ 5 ]}
  = Continue ({[ 0 ]} ∪ {[ 5 ]}).
Proof.
  apply (parseField_empty decimalNumber asciiLowerCase eq_refl eq_refl
           "5," minuteOptions {[ 5 ]}).
  - exact I.
  - simpl. lia.
Defined.

Example parse_trailing_comma :
  parseSegment decimalNumber asciiLowerCase "5," minuteOptions
  = Right (list_to_set [0; 5])
  /\ parseSegment decimalNumber asciiLowerCase "5," dayOptions
     = Left (mkParseError (ExpectedBetween 1 31) (Some "5,")).
Proof. split; vm_compute; reflexivity. Qed.

(** Two expressions that differ in their time zone only. *)
Lemma equals_iff_witness :
  equalsByList (mkCron None {[ 30 ]} ∅ ∅ ∅ ∅) (mkCron (Some tt) {[ 30 ]} ∅ ∅ ∅ ∅)
  = true.
Proof.
  apply (equals_iff unit (fun l1 l2 => bool_decide (l1 = l2))).
  - intros l1 l2. apply bool_decide_eq_true.
  - repeat split.
Defined.

End Cron.

(* ===================================================================== *)
(** ** packages/system/test/crypto/index.ts *)
(* ===================================================================== *)

Module Crypto.

(** A [Buffer]: a sequence of bytes. *)
Definition Buffer : Type := list Byte.byte.

Definition byte_of_Z (z : Z) : Byte.byte :=
  match Byte.of_N (Z.to_N (z mod 256)) with
  | Some b => b
  | None => Byte.x00
  end.

Definition Z_of_byte (b : Byte.byte) : Z := Z.of_N (Byte.to_N b).

(** [Buffer.alloc(size)]: zero-filled. *)
Definition alloc (size : nat) : Buffer := replicate size Byte.x00.

(** [source.copy(target, targetStart)]: overwrites [target] from
    [targetStart] on, for as many bytes as fit. *)
Definition copy (source target : Buffer) (targetStart : nat) : Buffer :=
  take targetStart target
  ++ take (length target - targetStart) source
  ++ drop (targetStart + length source) target.

(** The four bytes [writeUInt32BE] stores, most significant first. *)
Definition be32 (value : Z) : Buffer :=
  [byte_of_Z (Z.shiftr value 24); byte_of_Z (Z.shiftr value 16);
   byte_of_Z (Z.shiftr value 8); byte_of_Z value].

(** [buf.writeUInt32BE(value, offset)]; [None] when it throws (the value is
    not a 32-bit unsigned integer, or the four bytes do not fit). *)
Definition writeUInt32BE (value : Z) (offset : nat) (buf : Buffer)
  : option Buffer :=
  if (0 <=? value) && (value <? 2 ^ 32) && (offset + 4 <=? length buf)%nat
  then Some (copy (be32 value) buf offset)
  else None.

(** [buf.readUInt32BE(offset)]; [None] when it throws (out of range). *)
Definition readUInt32BE (offset : nat) (buf : Buffer) : option Z :=
  match drop offset buf with
  | b0 :: b1 :: b2 :: b3 :: _ =>
      Some (Z_of_byte b0 * 2 ^ 24 + Z_of_byte b1 * 2 ^ 16
            + Z_of_byte b2 * 2 ^ 8 + Z_of_byte b3)
  | _ => None
  end.

(** [buf.slice(start, end)] for [0 <= start <= end], clamped to the buffer. *)
Definition slice (start end_ : Z) (buf : Buffer) : Buffer :=
  take (Z.to_nat (end_ - start)) (drop (Z.to_nat start) buf).

(** [buf.toString("binary", start)]: one character per byte, with the
    byte's code; empty when [start] is past the end. *)
Definition toBinary (start : Z) (buf : Buffer) : string :=
  String.string_of_list_byte (drop (Z.to_nat start) buf).

Definition hexDigit (n : N) : ascii :=
  match n with
  | 0 => "0" | 1 => "1" | 2 => "2" | 3 => "3" | 4 => "4" | 5 => "5"
  | 6 => "6" | 7 => "7" | 8 => "8" | 9 => "9" | 10 => "a" | 11 => "b"
  | 12 => "c" | 13 => "d" | 14 => "e" | _ => "f"
  end%N%char.

Definition hexValue (a : ascii) : option N :=
  (let n := N_of_ascii a in
   if (48 <=? n) && (n <=? 57) then Some (n - 48)          (* 0-9 *)
   else if (97 <=? n) && (n <=? 102) then Some (n - 87)    (* a-f *)
   else if (65 <=? n) && (n <=? 70) then Some (n - 55)     (* A-F *)
   else None)%N.

(** [buf.toString("hex")] *)
Fixpoint toHex (buf : Buffer) : string :=
  match buf with
  | [] => EmptyString
  | b :: rest =>
      let n := Byte.to_N b in
      String (hexDigit (n / 16)) (String (hexDigit (n mod 16)) (toHex rest))
  end%N.

(** [Buffer.from(text, "hex")]: decoding stops at the first pair that is not
    two hexadecimal digits; a trailing single character is dropped. *)
Fixpoint fromHex (text : string) : Buffer :=
  match text with
  | String hi (String lo rest) =>
      match hexValue hi, hexValue lo with
      | Some h, Some l =>
          match Byte.of_N (16 * h + l) with
          | Some b => b :: fromHex rest
          | None => []
          end
      | _, _ => []
      end
  | _ => []
  end%N.

Record Config : Type := mkConfig {
  hashBytes : Z;
  saltBytes : Z;
  iterations : Z;
  digest : string
}.

Definition defaultConfig : Config :=
  {| hashBytes := 32; saltBytes := 16; iterations := 872791; digest := "sha512" |}.

(** [PBKDF2ConfigTest]: [{ ...defaultConfig, iterations: 1 }] *)
Definition testConfig : Config :=
  {| hashBytes := hashBytes defaultConfig; saltBytes := saltBytes defaultConfig;
     iterations := 1; digest := digest defaultConfig |}.

(** How a call of node's [crypto] ends: it throws on arguments it refuses,
    or it calls back with an error or with a buffer. *)
Inductive Called : Type :=
| Threw
| CalledErr
| CalledOk (buf : Buffer).

Inductive InvalidPassword : Type := mkInvalidPassword.

(** What the effect built by [T.effectAsync] comes to: the task handed to
    [cb] ([T.succeed], [T.fail], [T.die]), or an exception out of the
    registration or out of a callback of [crypto]. *)
Inductive Result (E A : Type) : Type :=
| Succeed (a : A)
| Fail (e : E)
| Die
| Thrown.
Arguments Succeed {E A} a.
Arguments Fail {E A} e.
Arguments Die {E A}.
Arguments Thrown {E A}.

(** A stand-in for [crypto] to run the two functions with: a salt of one
    repeated byte, and a key of [keylen] bytes that depends on the password,
    the salt and the iteration count; both refuse a negative length. *)
Definition toyRandomBytes (size : Z) : Called :=
  if size <? 0 then Threw else CalledOk (replicate (Z.to_nat size) Byte.x2a).

Definition toyPbkdf2 (password : string) (salt : Buffer) (iters keylen : Z)
           (dig : string) : Called :=
  if keylen <? 0 then Threw
  else CalledOk (replicate (Z.to_nat keylen)
                   (byte_of_Z (Z.of_nat (String.length password) + iters
                               + Z.of_nat (length salt)))).

Section MakeCrypto.

(** [crypto.randomBytes(size, cb)] and
    [crypto.pbkdf2(password, salt, iterations, keylen, digest, cb)], as
    deterministic functions of their arguments. *)
Variable randomBytes : Z -> Called.
Variable pbkdf2 : string -> Buffer -> Z -> Z -> string -> Called.

(** [const config = yield* _(PBKDF2Config)] *)
Variable config : Config.

Definition hashPassword (password : string) : Result Empty_set string :=
  match randomBytes (saltBytes config) with
  | Threw => Thrown
  | CalledErr => Die
  | CalledOk salt =>
      match pbkdf2 password salt (iterations config) (hashBytes config)
                   (digest config) with
      | Threw => Thrown
      | CalledErr => Die
      | CalledOk hash =>
          let combined := alloc (length hash + length salt + 8) in
          match writeUInt32BE (Z.of_nat (length salt)) 0 combined with
          | None => Thrown
          | Some combined =>
              match writeUInt32BE (iterations config) 4 combined with
              | None => Thrown
              | Some combined =>
                  let combined := copy salt combined 8 in
                  let combined := copy hash combined (length salt + 8) in
                  Succeed (toHex combined)
              end
          end
      end
  end.

Definition verifyPassword (password hashText : string)
  : Result InvalidPassword unit :=
  let combined := fromHex hashText in
  match readUInt32BE 0 combined with
  | None => Thrown
  | Some saltBytes =>
      let hashBytes := Z.of_nat (length combined) - saltBytes - 8 in
      match readUInt32BE 4 combined with
      | None => Thrown
      | Some iterations =>
          let salt := slice 8 (saltBytes + 8) combined in
          let hash := toBinary (saltBytes + 8) combined in
          match pbkdf2 password salt iterations hashBytes (digest config) with
          | Threw => Thrown
          | CalledErr => Fail mkInvalidPassword
          | CalledOk verify =>
              if String.eqb (toBinary 0 verify) hash then Succeed tt
              else Fail mkInvalidPassword
          end
      end
  end.

(** The bytes [hashPassword] puts together: the two header fields, the
    salt, the hash. *)
Definition layout (salt hash : Buffer) (iters : Z) : Buffer :=
  be32 (Z.of_nat (length salt)) ++ be32 iters ++ salt ++ hash.

(** The bytes [verifyPassword] compares the recomputed hash with. *)
Definition storedHash (saltLen : Z) (combined : Buffer) : Buffer :=
  drop (Z.to_nat (saltLen + 8)) combined.

(** *** Buffers *)

Lemma Z_of_byte_of_Z z : Z_of_byte (byte_of_Z z) = z mod 256.
Proof.
  unfold Z_of_byte, byte_of_Z.
  assert (Hr : 0 <= z mod 256 < 256) by (apply Z.mod_pos_bound; lia).
  destruct (Byte.of_N (Z.to_N (z mod 256))) as [b|] eqn:Hb.
  - apply Byte.to_of_N in Hb. rewrite Hb. lia.
  - apply Byte.of_N_None_iff in Hb. lia.
Qed.

Lemma length_be32 value : length (be32 value) = 4%nat.
Proof. reflexivity. Qed.

Lemma readUInt32BE_be32 value (rest : Buffer) :
  0 <= value < 2 ^ 32 ->
  readUInt32BE 0 (be32 value ++ rest) = Some value.
Proof.
  intros Hv. unfold readUInt32BE, be32; simpl.
  rewrite !Z_of_byte_of_Z, !Z.shiftr_div_pow2 by lia.
  f_equal.
  change (2 ^ 32) with 4294967296 in Hv.
  change (2 ^ 24) with 16777216. change (2 ^ 16) with 65536.
  change (2 ^ 8) with 256.
  Z.to_euclidean_division_equations. lia.
Qed.

Lemma copy_app (source pre old rest : Buffer) :
  length old = length source ->
  copy source (pre ++ old ++ rest) (length pre) = pre ++ source ++ rest.
Proof.
  intros Hlen. unfold copy.
  rewrite take_app_length. f_equal.
  rewrite take_ge by (rewrite !length_app; lia). f_equal.
  rewrite drop_app_add, <- Hlen. apply drop_app_length.
Qed.

Lemma writeUInt32BE_app value (pre old rest : Buffer) :
  0 <= value < 2 ^ 32 -> length old = 4%nat ->
  writeUInt32BE value (length pre) (pre ++ old ++ rest)
  = Some (pre ++ be32 value ++ rest).
Proof.
  intros Hv Hold. unfold writeUInt32BE.
  replace ((0 <=? value) && (value <? 2 ^ 32)) with true
    by (symmetry; apply andb_true_iff; split; [apply Z.leb_le|apply Z.ltb_lt]; lia).
  replace (length pre + 4 <=? length (pre ++ old ++ rest))%nat with true
    by (symmetry; apply Nat.leb_le; rewrite !length_app; lia).
  simpl. f_equal. apply copy_app. exact Hold.
Qed.

Lemma writeUInt32BE_Some value offset (buf buf' : Buffer) :
  writeUInt32BE value offset buf = Some buf' -> 0 <= value < 2 ^ 32.
Proof.
  unfold writeUInt32BE.
  destruct (Z.leb_spec 0 value), (Z.ltb_spec value (2 ^ 32)); simpl;
    try discriminate.
  intros _. lia.
Qed.

Lemma fromHex_toHex (buf : Buffer) : fromHex (toHex buf) = buf.
Proof.
  induction buf as [|b rest IH]; [reflexivity|].
  change (toHex (b :: rest))
    with (String (hexDigit (Byte.to_N b / 16))
            (String (hexDigit (Byte.to_N b mod 16)) (toHex rest))).
  transitivity (b :: fromHex (toHex rest)); [|f_equal; exact IH].
  generalize (toHex rest). intros text. destruct b; reflexivity.
Qed.

Lemma toBinary_inj (a b : Buffer) :
  toBinary 0 a = toBinary 0 b -> a = b.
Proof.
  unfold toBinary; simpl. intros H.
  apply (f_equal String.list_byte_of_string) in H.
  rewrite !String.list_byte_of_string_of_list_byte in H. exact H.
Qed.

Lemma combined_layout (salt hash : Buffer) (iters : Z) :
  0 <= Z.of_nat (length salt) < 2 ^ 32 -> 0 <= iters < 2 ^ 32 ->
  exists c1 c2,
    writeUInt32BE (Z.of_nat (length salt)) 0
                  (alloc (length hash + length salt + 8)) = Some c1
    /\ writeUInt32BE iters 4 c1 = Some c2
    /\ copy hash (copy salt c2 8) (length salt + 8) = layout salt hash iters.
Proof.
  intros Hs Hi.
  set (zeros n := replicate n Byte.x00 : Buffer).
  exists (be32 (Z.of_nat (length salt)) ++ zeros 4%nat
          ++ zeros (length salt) ++ zeros (length hash)).
  exists (be32 (Z.of_nat (length salt)) ++ be32 iters
          ++ zeros (length salt) ++ zeros (length hash)).
  split; [|split].
  - unfold alloc.
    replace (length hash + length salt + 8)%nat
      with (4 + (4 + (length salt + length hash)))%nat by lia.
    rewrite !replicate_add.
    apply (writeUInt32BE_app _ [] (zeros 4%nat)); [exact Hs|reflexivity].
  - apply (writeUInt32BE_app _ (be32 _) (zeros 4%nat)); [exact Hi|reflexivity].
  - rewrite (app_assoc (be32 _) (be32 iters)).
    rewrite (copy_app salt (be32 _ ++ be32 iters) (zeros (length salt)))
      by apply length_replicate.
    rewrite (app_assoc (be32 _ ++ be32 iters) salt).
    replace (length salt + 8)%nat
      with (length ((be32 (Z.of_nat (length salt)) ++ be32 iters) ++ salt))
      by (rewrite !length_app, !length_be32; lia).
    rewrite <- (app_nil_r (zeros (length hash))).
    rewrite (copy_app hash _ (zeros (length hash)) [])
      by apply length_replicate.
    unfold layout. rewrite app_nil_r, <- !app_assoc. reflexivity.
Qed.

Lemma hashPassword_layout password (salt hash : Buffer) :
  randomBytes (saltBytes config) = CalledOk salt ->
  pbkdf2 password salt (iterations config) (hashBytes config) (digest config)
  = CalledOk hash ->
  Z.of_nat (length salt) < 2 ^ 32 ->
  0 <= iterations config < 2 ^ 32 ->
  hashPassword password
  = Succeed (toHex (layout salt hash (iterations config))).
Proof.
  intros Hsalt Hhash Hs Hi. unfold hashPassword. rewrite Hsalt, Hhash.
  destruct (combined_layout salt hash (iterations config))
    as (c1 & c2 & H1 & H2 & H3); [lia|exact Hi|].
  rewrite H1, H2, H3. reflexivity.
Qed.

(** Whatever [hashPassword] returns is such a layout. *)
Lemma hashPassword_Succeed password h :
  hashPassword password = Succeed h ->
  exists salt hash,
    randomBytes (saltBytes config) = CalledOk salt
    /\ pbkdf2 password salt (iterations config) (hashBytes config)
              (digest config) = CalledOk hash
    /\ Z.of_nat (length salt) < 2 ^ 32
    /\ 0 <= iterations config < 2 ^ 32
    /\ h = toHex (layout salt hash (iterations config)).
Proof.
  unfold hashPassword.
  destruct (randomBytes (saltBytes config)) as [| |salt] eqn:Hsalt;
    try discriminate.
  destruct (pbkdf2 password salt _ _ _) as [| |hash] eqn:Hhash;
    try discriminate.
  destruct (writeUInt32BE (Z.of_nat (length salt)) 0 _) as [c1|] eqn:H1;
    [|discriminate].
  destruct (writeUInt32BE (iterations config) 4 c1) as [c2|] eqn:H2;
    [|discriminate].
  intros [= <-].
  pose proof (writeUInt32BE_Some _ _ _ _ H1) as Hs.
  pose proof (writeUInt32BE_Some _ _ _ _ H2) as Hi.
  exists salt, hash. repeat split; try assumption; try lia.
  destruct (combined_layout salt hash (iterations config))
    as (c1' & c2' & H1' & H2' & H3); [lia|lia|].
  rewrite H1 in H1'. injection H1' as <-.
  rewrite H2 in H2'. injection H2' as <-.
  rewrite H3. reflexivity.
Qed.

Lemma verifyPassword_layout password (salt hash : Buffer) (iters : Z) :
  Z.of_nat (length salt) < 2 ^ 32 -> 0 <= iters < 2 ^ 32 ->
  verifyPassword password (toHex (layout salt hash iters))
  = match pbkdf2 password salt iters (Z.of_nat (length hash)) (digest config) with
    | Threw => Thrown
    | CalledErr => Fail mkInvalidPassword
    | CalledOk verify =>
        if String.eqb (toBinary 0 verify) (toBinary 0 hash) then Succeed tt
        else Fail mkInvalidPassword
    end.
Proof.
  intros Hs Hi. unfold verifyPassword. rewrite fromHex_toHex.
  unfold layout at 1. rewrite readUInt32BE_be32 by lia.
  assert (Hit : readUInt32BE 4 (layout salt hash iters) = Some iters).
  { unfold layout. change (readUInt32BE 0 (be32 iters ++ salt ++ hash) = Some iters).
    apply readUInt32BE_be32, Hi. }
  rewrite Hit.
  assert (Hdrop8 : drop 8 (layout salt hash iters) = salt ++ hash) by reflexivity.
  assert (Hsalt : slice 8 (Z.of_nat (length salt) + 8) (layout salt hash iters)
                  = salt).
  { unfold slice. change (Z.to_nat 8) with 8%nat. rewrite Hdrop8.
    apply take_app_length'. lia. }
  assert (Hlen : Z.of_nat (length (layout salt hash iters))
                 - Z.of_nat (length salt) - 8 = Z.of_nat (length hash)).
  { unfold layout. rewrite !length_app, !length_be32. lia. }
  assert (Hhash : toBinary (Z.of_nat (length salt) + 8) (layout salt hash iters)
                  = toBinary 0 hash).
  { unfold toBinary. f_equal.
    replace (Z.to_nat (Z.of_nat (length salt) + 8))
      with (8 + length salt)%nat by lia.
    rewrite <- drop_drop, Hdrop8. apply drop_app_length. }
  rewrite Hsalt, Hlen, Hhash. reflexivity.
Qed.

(** *** Theorems *)

(** [crypto.pbkdf2] derives a key of exactly [keylen] bytes. *)
Hypothesis pbkdf2_length :
  forall password salt iters keylen dig key,
    pbkdf2 password salt iters keylen dig = CalledOk key ->
    Z.of_nat (length key) = keylen.

(** C10: with [randomBytes] and [pbkdf2] deterministic functions (and
    [pbkdf2] returning [keylen] bytes), [hashPassword p] produces a hex
    string [h] whenever both calls deliver and the salt length and the
    iteration count fit the 32-bit header fields, and [verifyPassword p h]
    succeeds on every [h] that [hashPassword p] produces, since the
    header gives back the salt, the iteration count and the hash length;
    and [verifyPassword] fails with [InvalidPassword] whenever the hash it
    recomputes differs from the stored one. *)
Theorem verify_accepts_hash_and_rejects_mismatch :
  (forall password salt hash,
      randomBytes (saltBytes config) = CalledOk salt ->
      pbkdf2 password salt (iterations config) (hashBytes config)
             (digest config) = CalledOk hash ->
      Z.of_nat (length salt) < 2 ^ 32 ->
      0 <= iterations config < 2 ^ 32 ->
      exists h, hashPassword password = Succeed h
                /\ fromHex h = layout salt hash (iterations config)
                /\ verifyPassword password h = Succeed tt)
  /\ (forall password h,
         hashPassword password = Succeed h ->
         verifyPassword password h = Succeed tt)
  /\ (forall password hashText saltLen iters verify,
         readUInt32BE 0 (fromHex hashText) = Some saltLen ->
         readUInt32BE 4 (fromHex hashText) = Some iters ->
         pbkdf2 password (slice 8 (saltLen + 8) (fromHex hashText)) iters
                (Z.of_nat (length (fromHex hashText)) - saltLen - 8)
                (digest config) = CalledOk verify ->
         verify <> storedHash saltLen (fromHex hashText) ->
         verifyPassword password hashText = Fail mkInvalidPassword).
Proof.
  assert (Hround : forall password salt hash,
             pbkdf2 password salt (iterations config) (hashBytes config)
                    (digest config) = CalledOk hash ->
             Z.of_nat (length salt) < 2 ^ 32 ->
             0 <= iterations config < 2 ^ 32 ->
             verifyPassword password
               (toHex (layout salt hash (iterations config))) = Succeed tt).
  { intros password salt hash Hhash Hs Hi.
    rewrite verifyPassword_layout by assumption.
    rewrite (pbkdf2_length _ _ _ _ _ _ Hhash), Hhash.
    rewrite String.eqb_refl. reflexivity. }
  split; [|split].
  - intros password salt hash Hsalt Hhash Hs Hi.
    exists (toHex (layout salt hash (iterations config))).
    split; [apply hashPassword_layout; assumption|].
    split; [apply fromHex_toHex|]. apply Hround; assumption.
  - intros password h Hh.
    apply hashPassword_Succeed in Hh
      as (salt & hash & _ & Hhash & Hs & Hi & ->).
    apply Hround; assumption.
  - intros password hashText saltLen iters verify H0 H4 Hv Hne.
    unfold verifyPassword. rewrite H0, H4, Hv.
    destruct (String.eqb _ _) eqn:E; [|reflexivity].
    apply String.eqb_eq in E. exfalso. apply Hne.
    apply toBinary_inj. exact E.
Qed.

End MakeCrypto.

(** *** The two functions on a stand-in for [crypto] *)

Lemma toyPbkdf2_length password salt iters keylen dig key :
  toyPbkdf2 password salt iters keylen dig = CalledOk key ->
  Z.of_nat (length key) = keylen.
Proof.
  unfold toyPbkdf2. destruct (Z.ltb_spec keylen 0); [discriminate|].
  intros [= <-]. rewrite length_replicate. lia.
Defined.

Example hash_header :
  hashPassword toyRandomBytes toyPbkdf2 (mkConfig 4 2 872791 "sha512") "hunter2"
  = Succeed "00000002000d51572a2a60606060".
Proof. vm_compute. reflexivity. Qed.

Example verify_wrong_password :
  verifyPassword toyPbkdf2 (mkConfig 4 2 872791 "sha512") "hunter"
                 "00000002000d51572a2a60606060"
  = Fail mkInvalidPassword.
Proof. vm_compute. reflexivity. Qed.

Example verify_short_input_throws :
  verifyPassword toyPbkdf2 testConfig "hunter2" "00000002" = Thrown.
Proof. vm_compute. reflexivity. Qed.

(** The length of the derived key matters: with a [pbkdf2] that answers a
    request for 32 bytes with one byte, the hash length read back from the
    text is not the one [hashPassword] asked for, and verification fails. *)
Example pbkdf2_length_is_needed :
  let oddPbkdf2 (password : string) (salt : Buffer) (iters keylen : Z)
                (dig : string) :=
    CalledOk (if keylen =? 32 then [Byte.x01] else [Byte.x02; Byte.x02]) in
  exists h,
    hashPassword toyRandomBytes oddPbkdf2 testConfig "hunter2" = Succeed h
    /\ verifyPassword oddPbkdf2 testConfig "hunter2" h = Fail mkInvalidPassword.
Proof. eexists. split; vm_compute; reflexivity. Qed.

Lemma verify_accepts_hash_witness :
  exists h,
    hashPassword toyRandomBytes toyPbkdf2 testConfig "hunter2" = Succeed h
    /\ verifyPassword toyPbkdf2 testConfig "hunter2" h = Succeed tt.
Proof.
  destruct (verify_accepts_hash_and_rejects_mismatch
              toyRandomBytes toyPbkdf2 testConfig toyPbkdf2_length)
    as (Hhash & _ & _).
  destruct (Hhash "hunter2" (replicate 16 Byte.x2a) (replicate 32 Byte.x18))
    as (h & Hh & _ & Hv).
  - reflexivity.
  - vm_compute. reflexivity.
  - vm_compute. reflexivity.
  - simpl. lia.
  - exists h. split; assumption.
Defined.

(** *** The stored text *)

Section Stored.

Variable randomBytes : Z -> Called.
Variable pbkdf2 : string -> Buffer -> Z -> Z -> string -> Called.

Lemma length_toHex (buf : Buffer) :
  String.length (toHex buf) = (2 * length buf)%nat.
Proof.
  induction buf as [|b rest IH]; [reflexivity|].
  change (toHex (b :: rest))
    with (String (hexDigit (Byte.to_N b / 16))
            (String (hexDigit (Byte.to_N b mod 16)) (toHex rest))).
  simpl. rewrite IH. lia.
Qed.

Lemma readUInt32BE_layout (salt hash : Buffer) (iters : Z) :
  Z.of_nat (length salt) < 2 ^ 32 -> 0 <= iters < 2 ^ 32 ->
  readUInt32BE 0 (layout salt hash iters) = Some (Z.of_nat (length salt))
  /\ readUInt32BE 4 (layout salt hash iters) = Some iters.
Proof.
  intros Hs Hi. unfold layout. split.
  - apply (readUInt32BE_be32 randomBytes pbkdf2). lia.
  - change (readUInt32BE 0 (be32 iters ++ salt ++ hash) = Some iters).
    apply (readUInt32BE_be32 randomBytes pbkdf2), Hi.
Qed.

(** The text [hashPassword] produces has two characters for each of the
    eight header bytes, the salt bytes and the hash bytes, and its header
    reads back as the salt length and the iteration count. *)
Theorem hashPassword_text (config : Config) (password h : string) :
  hashPassword randomBytes pbkdf2 config password = Succeed h ->
  exists salt hash,
    randomBytes (saltBytes config) = CalledOk salt
    /\ pbkdf2 password salt (iterations config) (hashBytes config)
              (digest config) = CalledOk hash
    /\ String.length h = (2 * (8 + length salt + length hash))%nat
    /\ readUInt32BE 0 (fromHex h) = Some (Z.of_nat (length salt))
    /\ readUInt32BE 4 (fromHex h) = Some (iterations config).
Proof.
  intros Hh.
  apply hashPassword_Succeed in Hh as (salt & hash & Hsalt & Hhash & Hs & Hi & ->).
  exists salt, hash. split; [exact Hsalt|]. split; [exact Hhash|].
  rewrite length_toHex, fromHex_toHex.
  split; [|apply readUInt32BE_layout; assumption].
  unfold layout. rewrite !length_app, !length_be32. lia.
Qed.

(** A text that decodes to fewer than eight bytes (an empty one, one that
    does not start with hexadecimal digits) makes [verifyPassword] throw:
    it is not answered with [InvalidPassword]. *)
Theorem verifyPassword_short_text (config : Config) (password text : string) :
  (length (fromHex text) < 8)%nat ->
  verifyPassword pbkdf2 config password text = Thrown.
Proof.
  unfold verifyPassword.
  destruct (fromHex text) as [|b0 [|b1 [|b2 [|b3 [|b4 [|b5 [|b6 [|b7 rest]]]]]]]];
    simpl; intros Hlen; try reflexivity.
  lia.
Qed.

(** [crypto.pbkdf2] derives a key of exactly [keylen] bytes. *)
Hypothesis pbkdf2_keylen :
  forall password salt iters keylen dig key,
    pbkdf2 password salt iters keylen dig = CalledOk key ->
    Z.of_nat (length key) = keylen.

(** On a text [hashPassword] produced, [verifyPassword] accepts exactly
    the passwords from which [pbkdf2] derives the stored key again, with
    the salt and the iteration count of the hashing. *)
Theorem verifyPassword_accepts_iff (config : Config) (password h : string) :
  hashPassword randomBytes pbkdf2 config password = Succeed h ->
  exists salt hash,
    randomBytes (saltBytes config) = CalledOk salt
    /\ pbkdf2 password salt (iterations config) (hashBytes config)
              (digest config) = CalledOk hash
    /\ forall attempt,
        verifyPassword pbkdf2 config attempt h = Succeed tt
        <-> pbkdf2 attempt salt (iterations config) (hashBytes config)
                   (digest config) = CalledOk hash.
Proof.
  intros Hh.
  apply hashPassword_Succeed in Hh as (salt & hash & Hsalt & Hhash & Hs & Hi & ->).
  exists salt, hash. split; [exact Hsalt|]. split; [exact Hhash|].
  intros attempt. rewrite (verifyPassword_layout randomBytes) by assumption.
  rewrite (pbkdf2_keylen _ _ _ _ _ _ Hhash).
  destruct (pbkdf2 attempt salt _ _ _) as [| |verify]; try (split; discriminate).
  destruct (String.eqb (toBinary 0 verify) (toBinary 0 hash)) eqn:E.
  - apply String.eqb_eq, toBinary_inj in E. subst. split; reflexivity.
  - split; [discriminate|]. intros [= ->].
    rewrite String.eqb_refl in E. discriminate.
Qed.

(** A text hashed under one configuration verifies under any other with
    the same digest: the salt length, the iteration count and the hash
    length are read from the text, not from the configuration. *)
Theorem verifyPassword_other_config (config config' : Config)
        (password h : string) :
  digest config' = digest config ->
  hashPassword randomBytes pbkdf2 config password = Succeed h ->
  verifyPassword pbkdf2 config' password h = Succeed tt.
Proof.
  intros Hd Hh.
  apply hashPassword_Succeed in Hh as (salt & hash & Hsalt & Hhash & Hs & Hi & ->).
  rewrite (verifyPassword_layout randomBytes) by assumption.
  rewrite (pbkdf2_keylen _ _ _ _ _ _ Hhash), Hd, Hhash, String.eqb_refl.
  reflexivity.
Qed.

End Stored.

Lemma hashPassword_text_witness :
  String.length "00000002000d51572a2a60606060" = 28%nat
  /\ readUInt32BE 4 (fromHex "00000002000d51572a2a60606060") = Some 872791.
Proof.
  destruct (hashPassword_text toyRandomBytes toyPbkdf2
              (mkConfig 4 2 872791 "sha512") "hunter2"
              "00000002000d51572a2a60606060")
    as (salt & hash & Hsalt & Hhash & Hlen & _ & Hit).
  - vm_compute. reflexivity.
  - split; [|exact Hit].
    injection Hsalt as <-. injection Hhash as <-. exact Hlen.
Defined.

Lemma verifyPassword_short_text_witness :
  verifyPassword toyPbkdf2 testConfig "hunter2" "0000001000" = Thrown.
Proof.
  apply (verifyPassword_short_text toyPbkdf2 testConfig "hunter2" "0000001000").
  vm_compute. lia.
Defined.

Lemma verifyPassword_accepts_iff_witness :
  verifyPassword toyPbkdf2 (mkConfig 4 2 872791 "sha512") "hunter3"
                 "00000002000d51572a2a60606060" = Succeed tt.
Proof.
  destruct (verifyPassword_accepts_iff toyRandomBytes toyPbkdf2 toyPbkdf2_length
              (mkConfig 4 2 872791 "sha512") "hunter2"
              "00000002000d51572a2a60606060")
    as (salt & hash & Hsalt & Hhash & Hiff).
  - vm_compute. reflexivity.
  - apply Hiff. injection Hsalt as <-. injection Hhash as <-.
    vm_compute. reflexivity.
Defined.

Lemma verifyPassword_other_config_witness :
  verifyPassword toyPbkdf2 defaultConfig "hunter2"
                 "00000002000d51572a2a60606060" = Succeed tt.
Proof.
  apply (verifyPassword_other_config toyRandomBytes toyPbkdf2 toyPbkdf2_length
           (mkConfig 4 2 872791 "sha512") defaultConfig "hunter2").
  - reflexivity.
  - vm_compute. reflexivity.
Defined.

End Crypto.

(* ===================================================================== *)
(** ** The Cause algebra (spec, sections 3, 4.1 and 8) *)
(* ===================================================================== *)

Module Cause.

Section Algebra.

(** The payloads of the typed failure and of the defect; a fiber is named
    by a number. *)
Variables (Error Defect : Type).
Definition FiberId : Type := nat.

(** Modelled from the spec: the Exit/Cause module is not under src/.
    Section 3: a Cause is [Fail(error)], [Die(defect)],
    [Interrupt(fiberId)], [Then(Cause, Cause)] or [Both(Cause, Cause)]. *)
Inductive Cause : Type :=
| Fail (error : Error)
| Die (defect : Defect)
| Interrupt (fiberId : FiberId)
| Then (first second : Cause)
| Both (left right : Cause).

(** Modelled from the spec: section 4.1, [combineSequential(c1, c2) =
    Then(c1, c2)] and [combineParallel(c1, c2) = Both(c1, c2)]; the
    combinators are not under src/. *)
Definition combineSequential (c1 c2 : Cause) : Cause := Then c1 c2.
Definition combineParallel (c1 c2 : Cause) : Cause := Both c1 c2.

(** A leaf failure. *)
Inductive Leaf : Type :=
| LFail (error : Error)
| LDie (defect : Defect)
| LInterrupt (fiberId : FiberId).

(** Modelled from the spec: sections 3 and 8, flattening a Cause to the
    ordered list of its leaves, left to right; the fold is not under src/. *)
Fixpoint leaves (c : Cause) : list Leaf :=
  match c with
  | Fail e => [LFail e]
  | Die d => [LDie d]
  | Interrupt id => [LInterrupt id]
  | Then a b => leaves a ++ leaves b
  | Both a b => leaves a ++ leaves b
  end.

(** Number of leaf nodes of the tree. *)
Fixpoint leafNodes (c : Cause) : nat :=
  match c with
  | Then a b | Both a b => leafNodes a + leafNodes b
  | _ => 1
  end.

(** Modelled from the spec: section 8 names three laws of combination and
    no other; [equiv] is the least congruence that has them. *)
Inductive equiv : Cause -> Cause -> Prop :=
| equiv_refl c : equiv c c
| equiv_sym c1 c2 : equiv c1 c2 -> equiv c2 c1
| equiv_trans c1 c2 c3 : equiv c1 c2 -> equiv c2 c3 -> equiv c1 c3
| equiv_Then a a' b b' : equiv a a' -> equiv b b' -> equiv (Then a b) (Then a' b')
| equiv_Both a a' b b' : equiv a a' -> equiv b b' -> equiv (Both a b) (Both a' b')
| Both_comm a b : equiv (Both a b) (Both b a)
| Both_assoc a b c : equiv (Both a (Both b c)) (Both (Both a b) c)
| Then_assoc a b c : equiv (Then a (Then b c)) (Then (Then a b) c).

(** The leaves a Cause can begin with: those of the first part of a
    [Then], those of either side of a [Both]. *)
Fixpoint startsWith (c : Cause) (l : Leaf) : Prop :=
  match c with
  | Fail e => l = LFail e
  | Die d => l = LDie d
  | Interrupt id => l = LInterrupt id
  | Then a _ => startsWith a l
  | Both a b => startsWith a l \/ startsWith b l
  end.

Lemma equiv_leaves c1 c2 : equiv c1 c2 -> leaves c1 ≡ₚ leaves c2.
Proof.
  induction 1; simpl.
  - reflexivity.
  - symmetry; assumption.
  - etransitivity; eassumption.
  - apply Permutation_app; assumption.
  - apply Permutation_app; assumption.
  - apply Permutation_app_comm.
  - rewrite app_assoc. reflexivity.
  - rewrite app_assoc. reflexivity.
Qed.

Lemma equiv_startsWith c1 c2 :
  equiv c1 c2 -> forall l, startsWith c1 l <-> startsWith c2 l.
Proof.
  induction 1; intros l; simpl.
  - reflexivity.
  - symmetry; auto.
  - etransitivity; eauto.
  - auto.
  - rewrite IHequiv1, IHequiv2. reflexivity.
  - tauto.
  - tauto.
  - reflexivity.
Qed.

Lemma length_leaves c : length (leaves c) = leafNodes c.
Proof.
  induction c; simpl; try reflexivity; rewrite length_app; congruence.
Qed.

Lemma Then_not_comm :
  equiv (Then (Interrupt 1%nat) (Interrupt 2%nat))
        (Then (Interrupt 2%nat) (Interrupt 1%nat))
  -> False.
Proof.
  intros H. apply equiv_startsWith with (l := LInterrupt 1%nat) in H.
  simpl in H. destruct H as [H _]. specialize (H eq_refl). discriminate H.
Qed.

(** *** Theorems *)

(** C3: [Both] is commutative and associative on the leaves taken as a
    collection, [Then] is associative and keeps the leaves in order but is
    not commutative, and combining drops no leaf: the flattening of a
    combination is the flattening of its parts, one after the other, with
    one entry per leaf node, and no rearrangement allowed by the laws
    changes the leaves as a multiset. *)
Theorem cause_combination_laws :
  (forall a b, equiv (combineParallel a b) (combineParallel b a)
               /\ leaves (combineParallel a b) ≡ₚ leaves (combineParallel b a))
  /\ (forall a b c,
         equiv (combineParallel a (combineParallel b c))
               (combineParallel (combineParallel a b) c)
         /\ leaves (combineParallel a (combineParallel b c))
            = leaves (combineParallel (combineParallel a b) c))
  /\ (forall a b c,
         equiv (combineSequential a (combineSequential b c))
               (combineSequential (combineSequential a b) c)
         /\ leaves (combineSequential a (combineSequential b c))
            = leaves (combineSequential (combineSequential a b) c))
  /\ (exists a b,
         ~ equiv (combineSequential a b) (combineSequential b a)
         /\ leaves (combineSequential a b) <> leaves (combineSequential b a))
  /\ (forall a b,
         leaves (combineSequential a b) = leaves a ++ leaves b
         /\ leaves (combineParallel a b) = leaves a ++ leaves b)
  /\ (forall c, length (leaves c) = leafNodes c)
  /\ (forall c1 c2, equiv c1 c2 -> leaves c1 ≡ₚ leaves c2).
Proof.
  split; [|split; [|split; [|split; [|split; [|split]]]]].
  - intros a b. split; [apply Both_comm|]. simpl. apply Permutation_app_comm.
  - intros a b c. split; [apply Both_assoc|]. simpl. apply app_assoc.
  - intros a b c. split; [apply Then_assoc|]. simpl. apply app_assoc.
  - exists (Interrupt 1%nat), (Interrupt 2%nat). split.
    + exact Then_not_comm.
    + simpl. discriminate.
  - intros a b. split; reflexivity.
  - exact length_leaves.
  - exact equiv_leaves.
Qed.

End Algebra.

Arguments Fail {Error Defect} error.
Arguments Die {Error Defect} defect.
Arguments Interrupt {Error Defect} fiberId.
Arguments Then {Error Defect} first second.
Arguments Both {Error Defect} left right.

Example leaves_in_order :
  leaves string string
    (Then (Both (Fail "timeout") (Interrupt 7%nat)) (Die "assertion"))
  = [LFail string string "timeout"; LInterrupt string string 7%nat;
     LDie string string "assertion"].
Proof. reflexivity. Qed.

Lemma cause_combination_laws_witness :
  leaves string string (Both (Fail "timeout") (Both (Interrupt 7%nat) (Die "assertion")))
  ≡ₚ leaves string string (Both (Both (Die "assertion") (Fail "timeout")) (Interrupt 7%nat)).
Proof.
  apply (cause_combination_laws string string).
  eapply equiv_trans; [apply Both_assoc|].
  eapply equiv_trans; [apply Both_comm|].
  apply Both_assoc.
Defined.

End Cause.

(* ===================================================================== *)
(** ** Scopes and their finalizers (spec, sections 3, 4.2, 5 and 8) *)
(* ===================================================================== *)

Module Scope.

(** What can be registered on a scope: a finalizer, or a child scope. *)
Inductive Entry (F S : Type) : Type :=
| Fin (f : F)
| Child (s : S).
Arguments Fin {F S} f.
Arguments Child {F S} s.

Local Set Warnings "-register-all".

Section Lifetime.

(** A cleanup action, named; running it is recorded by its name. *)
Variable Finalizer : Type.

(** Modelled from the spec: the Scope module is not under src/.  Section
    3: a Scope is a node of the lifetime tree with a closed flag and what
    was registered on it, oldest first.  The tree is taken at the moment
    [close] is called, so the parent link is the position in the tree;
    the member fibers have reached [Done] by then (section 3) and the
    stored cause does not bear on the order of the finalizers: both are
    left out. *)
Inductive Scope : Type :=
| MkScope (closed : bool) (registered : list (Entry Finalizer Scope)).

Definition isClosed (s : Scope) : bool :=
  match s with MkScope closed _ => closed end.

(** Modelled from the spec: section 4.2, [addFinalizer(scope, finalizer)]
    queues the finalizer, or on a closed scope runs it at once and does
    not keep it.  The first component is what ran. *)
Definition addFinalizer (s : Scope) (f : Finalizer) : list Finalizer * Scope :=
  match s with
  | MkScope true _ => ([f], s)
  | MkScope false registered => ([], MkScope false (registered ++ [Fin f]))
  end.

(** [addFinalizer] for [f1], ..., [fn] in this order. *)
Definition registerAll (fs : list Finalizer) (s : Scope) : Scope :=
  fold_left (fun s f => snd (addFinalizer s f)) fs s.

(** Modelled from the spec: section 4.2, [close(scope, cause)] runs the
    registered finalizers in reverse order, closes the child scopes
    recursively, each at its place in that order, and marks the scope
    closed; on a closed scope it does nothing.  The first component is
    the sequence of finalizers run, first to last; the second the scope
    afterwards, which keeps its (closed) children and no finalizer. *)
Fixpoint close (s : Scope) : list Finalizer * Scope :=
  match s with
  | MkScope true _ => ([], s)
  | MkScope false registered =>
      let fix drain (entries : list (Entry Finalizer Scope))
        : list Finalizer * list (Entry Finalizer Scope) :=
        match entries with
        | [] => ([], [])
        | Fin f :: later =>
            let '(ran, kept) := drain later in (ran ++ [f], kept)
        | Child c :: later =>
            let '(ran, kept) := drain later in
            let '(ranChild, c') := close c in
            (ran ++ ranChild, Child c' :: kept)
        end in
      let '(ran, kept) := drain registered in (ran, MkScope true kept)
  end.

(** The loop of [close] over the entries, as a function of its own. *)
Fixpoint drain (entries : list (Entry Finalizer Scope))
  : list Finalizer * list (Entry Finalizer Scope) :=
  match entries with
  | [] => ([], [])
  | Fin f :: later =>
      let '(ran, kept) := drain later in (ran ++ [f], kept)
  | Child c :: later =>
      let '(ran, kept) := drain later in
      let '(ranChild, c') := close c in
      (ran ++ ranChild, Child c' :: kept)
  end.

(** The finalizers registered on the scope itself, oldest first. *)
Fixpoint ownFinalizers (entries : list (Entry Finalizer Scope)) : list Finalizer :=
  match entries with
  | [] => []
  | Fin f :: later => f :: ownFinalizers later
  | Child _ :: later => ownFinalizers later
  end.

(** The finalizers still to be run in a scope and below it. *)
Fixpoint pending (s : Scope) : list Finalizer :=
  match s with
  | MkScope true _ => []
  | MkScope false registered =>
      (fix go (entries : list (Entry Finalizer Scope)) : list Finalizer :=
         match entries with
         | [] => []
         | Fin f :: later => f :: go later
         | Child c :: later => pending c ++ go later
         end) registered
  end.

Fixpoint pendingEntries (entries : list (Entry Finalizer Scope)) : list Finalizer :=
  match entries with
  | [] => []
  | Fin f :: later => f :: pendingEntries later
  | Child c :: later => pending c ++ pendingEntries later
  end.

(** What one entry contributes when its turn comes. *)
Definition block (e : Entry Finalizer Scope) : list Finalizer :=
  match e with
  | Fin f => [f]
  | Child c => fst (close c)
  end.

(** *** Lemmas *)

Lemma Scope_induction (P : Scope -> Prop) :
  (forall closed registered,
      (forall c, In (Child c) registered -> P c) ->
      P (MkScope closed registered)) ->
  forall s, P s.
Proof.
  intros H. fix IH 1. intros [closed registered]. apply H.
  induction registered as [|[f|c'] later IHl]; intros c Hin; simpl in Hin.
  - contradiction.
  - destruct Hin as [Heq|Hin]; [discriminate|exact (IHl c Hin)].
  - destruct Hin as [Heq|Hin]; [|exact (IHl c Hin)].
    injection Heq as Heq. rewrite <- Heq. apply IH.
Qed.

Lemma close_open registered :
  close (MkScope false registered)
  = let '(ran, kept) := drain registered in (ran, MkScope true kept).
Proof. reflexivity. Qed.

Lemma pending_open registered :
  pending (MkScope false registered) = pendingEntries registered.
Proof. reflexivity. Qed.

Lemma fst_close_open registered :
  fst (close (MkScope false registered)) = fst (drain registered).
Proof. rewrite close_open. destruct (drain registered); reflexivity. Qed.

Lemma drain_cons e later :
  fst (drain (e :: later)) = fst (drain later) ++ block e.
Proof.
  destruct e as [f|c]; simpl; destruct (drain later) as [ran kept];
    [reflexivity|]. destruct (close c); reflexivity.
Qed.

Lemma drain_app pre post :
  fst (drain (pre ++ post)) = fst (drain post) ++ fst (drain pre).
Proof.
  induction pre as [|e pre IH].
  - simpl. rewrite app_nil_r. reflexivity.
  - rewrite <- app_comm_cons, !drain_cons, IH, app_assoc. reflexivity.
Qed.

Lemma drain_blocks entries :
  fst (drain entries) = concat (map block (rev entries)).
Proof.
  induction entries as [|e later IH]; [reflexivity|].
  rewrite drain_cons, IH. simpl.
  rewrite map_app, concat_app. simpl. rewrite app_nil_r. reflexivity.
Qed.

Lemma drain_own entries :
  sublist (rev (ownFinalizers entries)) (fst (drain entries)).
Proof.
  induction entries as [|[f|c] later IH]; rewrite ?drain_cons; simpl.
  - constructor.
  - apply sublist_app; [exact IH|reflexivity].
  - apply sublist_inserts_r. exact IH.
Qed.

Lemma drain_finalizers fs :
  drain (map Fin fs) = (rev fs, []).
Proof.
  induction fs as [|f fs IH]; [reflexivity|].
  simpl. rewrite IH. reflexivity.
Qed.

Lemma registerAll_open fs registered :
  registerAll fs (MkScope false registered)
  = MkScope false (registered ++ map Fin fs).
Proof.
  revert registered. induction fs as [|f fs IH]; intros registered; simpl.
  - rewrite app_nil_r. reflexivity.
  - unfold registerAll in IH. rewrite IH, <- app_assoc. reflexivity.
Qed.

Lemma close_pending s : fst (close s) ≡ₚ pending s.
Proof.
  induction s as [closed registered IH] using Scope_induction.
  destruct closed; [reflexivity|].
  rewrite fst_close_open, pending_open.
  induction registered as [|e later IHl]; [reflexivity|].
  rewrite drain_cons.
  assert (Hl : fst (drain later) ≡ₚ pendingEntries later).
  { apply IHl. intros c Hc. apply IH. right. exact Hc. }
  rewrite Hl, Permutation_app_comm.
  destruct e as [f|c]; simpl; [reflexivity|].
  rewrite (IH c) by (left; reflexivity). reflexivity.
Qed.

Lemma close_closes s : isClosed (snd (close s)) = true.
Proof.
  destruct s as [[|] registered]; [reflexivity|].
  rewrite close_open. destruct (drain registered); reflexivity.
Qed.

Lemma close_closed s : isClosed s = true -> close s = ([], s) /\ pending s = [].
Proof. destruct s as [[|] registered]; [split; reflexivity|discriminate]. Qed.

(** *** Theorems *)

(** C2: for a scope on which [f1], ..., [fn] were registered in this
    order, [close] runs [fn], ..., [f1]; in general the scope's own
    finalizers run in reverse order of registration, a child scope is
    drained as one block after everything registered later than it and
    before everything registered earlier, every pending finalizer runs
    exactly once, and closing the scope again runs nothing. *)
Theorem close_runs_finalizers_in_reverse_once :
  (forall fs,
      close (registerAll fs (MkScope false [])) = (rev fs, MkScope true []))
  /\ (forall registered,
         sublist (rev (ownFinalizers registered))
                 (fst (close (MkScope false registered))))
  /\ (forall earlier c later,
         fst (close (MkScope false (earlier ++ Child c :: later)))
         = fst (close (MkScope false later))
           ++ fst (close c)
           ++ fst (close (MkScope false earlier)))
  /\ (forall s, fst (close s) ≡ₚ pending s)
  /\ (forall s, close (snd (close s)) = ([], snd (close s))
                /\ pending (snd (close s)) = []).
Proof.
  split; [|split; [|split; [|split]]].
  - intros fs. rewrite registerAll_open, close_open. simpl.
    rewrite drain_finalizers. reflexivity.
  - intros registered. rewrite fst_close_open. apply drain_own.
  - intros earlier c later. rewrite !fst_close_open, drain_app, drain_cons.
    simpl. rewrite app_assoc. reflexivity.
  - exact close_pending.
  - intros s. apply close_closed, close_closes.
Qed.

End Lifetime.

Arguments MkScope {Finalizer} closed registered.

(** Two finalizers around a child scope with two of its own. *)
Example close_nested :
  close nat (MkScope false
               [Fin 1; Child (MkScope false [Fin 10; Fin 11]); Fin 2]%nat)
  = ([2; 11; 10; 1]%nat, MkScope true [Child (MkScope true [])]).
Proof. reflexivity. Qed.

(** A child that was closed earlier contributes nothing. *)
Example close_skips_closed_child :
  fst (close nat (MkScope false
                    [Fin 1; Child (MkScope true [Fin 10; Fin 11]); Fin 2]%nat))
  = [2; 1]%nat.
Proof. reflexivity. Qed.

Example addFinalizer_on_closed :
  addFinalizer nat (MkScope true []) 5%nat = ([5%nat], MkScope true []).
Proof. reflexivity. Qed.

End Scope.
